(** * mysql-promised: the table model of lib/base.js

    A shallow embedding of [BaseModel] (lib/base.js) and [DbError]
    (lib/error.js).  JavaScript values live in a store of objects, because
    the model methods share and update objects in place ([find] writes into
    the caller's options, [validate] extends rule objects).  The mysql
    driver, validate.js and the host's string built-ins are collaborators
    and are taken as parameters; underscore's helpers are written out after
    underscore 1.8.

    Asynchrony is read sequentially: a method either throws or returns a
    promise, and the promise is given in the state in which its caller
    finally observes it, after the driver has replied (or for good has
    not).  What is left out: numbers that are not integers, properties
    inherited from a prototype, and [console.log]. *)

From Stdlib Require Import ZArith String Ascii List Lia.
From Stdlib Require Import DecimalString DecimalNat DecimalFacts.
From stdpp Require Import base list strings.

(** ** JavaScript values and the object store *)

Module Js.

(** Locations are positions in the store. *)
Abbreviation loc := nat (only parsing).

(** Numbers are the integral ones; a string is a sequence of code units
    below 256. *)
Inductive value :=
| VUndefined
| VNull
| VBool (b : bool)
| VNum (n : Z)
| VStr (s : string)
| VRef (l : loc).

(** What [Object.prototype.toString] tells apart: plain objects, arrays
    (dense, with their elements) and functions (with their arity). *)
Inductive kind :=
| KPlain
| KArray (elems : list value)
| KFunction (arity : nat).

(** [props] are the own enumerable properties other than array elements,
    in the order in which the engine enumerates them.  Properties found
    through a prototype are not part of the model. *)
Record object := Object { okind : kind; props : list (string * value) }.

Definition plain (fs : list (string * value)) : object := Object KPlain fs.
Definition array (xs : list value) : object := Object (KArray xs) [].
Definition func (arity : nat) : object := Object (KFunction arity) [].

Abbreviation heap := (list object) (only parsing).

Definition deref (h : heap) (l : loc) : object := default (plain []) (h !! l).

Definition alloc (h : heap) (o : object) : heap * value := (h ++ [o], VRef (length h)).

(** Values that can be thrown, or be the reason of a rejection. *)
Inductive error :=
| DbError (message : string) (description : value)
| JsError (message : string)
| ReferenceError (name : string)
| TypeError
| RangeError
| Reason (v : value).

Inductive completion (A : Type) :=
| Return (a : A)
| Throw (e : error).
Arguments Return {A} a.
Arguments Throw {A} e.

Definition bind {A B} (c : completion A) (k : A -> completion B) : completion B :=
  match c with
  | Return a => k a
  | Throw e => Throw e
  end.

Notation "'let*' x := c 'in' k" := (bind c (fun x => k))
  (at level 10, x pattern, c at level 100, k at level 200).

Definition truthy (v : value) : bool :=
  match v with
  | VUndefined | VNull => false
  | VBool b => b
  | VNum n => negb (n =? 0)%Z
  | VStr s => negb (String.eqb s "")
  | VRef _ => true
  end.

Definition isString (v : value) : bool := match v with VStr _ => true | _ => false end.
Definition isNumber (v : value) : bool := match v with VNum _ => true | _ => false end.
Definition isUndefined (v : value) : bool := match v with VUndefined => true | _ => false end.
Definition isNull (v : value) : bool := match v with VNull => true | _ => false end.

Definition isArray (h : heap) (v : value) : bool :=
  match v with
  | VRef l => match okind (deref h l) with KArray _ => true | _ => false end
  | _ => false
  end.

Definition isFunction (h : heap) (v : value) : bool :=
  match v with
  | VRef l => match okind (deref h l) with KFunction _ => true | _ => false end
  | _ => false
  end.

(** *** Property keys *)

Definition key_of_nat (i : nat) : string := NilZero.string_of_uint (Nat.to_uint i).
Definition string_of_Z (n : Z) : string := NilZero.string_of_int (Z.to_int n).

(** An array index is a key that is the canonical decimal form of a
    natural number. *)
Definition index_of_key (k : string) : option nat :=
  match NilZero.uint_of_string k with
  | Some u => let i := Nat.of_uint u in
              if String.eqb (key_of_nat i) k then Some i else None
  | None => None
  end.

Definition lookupField (k : string) (fs : list (string * value)) : option value :=
  snd <$> List.find (fun kv => String.eqb (fst kv) k) fs.

Fixpoint insertIndexField (i : nat) (k : string) (v : value)
    (fs : list (string * value)) : list (string * value) :=
  match fs with
  | [] => [(k, v)]
  | (k', v') :: fs' =>
      match index_of_key k' with
      | Some j => if (j <? i)%nat then (k', v') :: insertIndexField i k v fs'
                  else (k, v) :: fs
      | None => (k, v) :: fs
      end
  end.

Fixpoint replaceField (k : string) (v : value)
    (fs : list (string * value)) : list (string * value) :=
  match fs with
  | [] => []
  | (k', v') :: fs' =>
      if String.eqb k' k then (k', v) :: fs' else (k', v') :: replaceField k v fs'
  end.

(** [o[k] = v] on the properties of an object: an existing key keeps its
    place, a new index key goes among the index keys in ascending order, any
    other new key goes last. *)
Definition setField (k : string) (v : value)
    (fs : list (string * value)) : list (string * value) :=
  match lookupField k fs with
  | Some _ => replaceField k v fs
  | None =>
      match index_of_key k with
      | Some i => insertIndexField i k v fs
      | None => fs ++ [(k, v)]
      end
  end.

Definition charAt (s : string) (i : nat) : option value :=
  match String.get i s with
  | Some c => Some (VStr (String c EmptyString))
  | None => None
  end.

Definition ownProp (o : object) (k : string) : option value :=
  match okind o with
  | KPlain => lookupField k (props o)
  | KArray elems =>
      if String.eqb k "length" then Some (VNum (Z.of_nat (length elems)))
      else match index_of_key k with
           | Some i => match elems !! i with
                       | Some x => Some x
                       | None => lookupField k (props o)
                       end
           | None => lookupField k (props o)
           end
  | KFunction arity =>
      if String.eqb k "length" then Some (VNum (Z.of_nat arity))
      else lookupField k (props o)
  end.

Definition strProp (s : string) (k : string) : option value :=
  if String.eqb k "length" then Some (VNum (Z.of_nat (String.length s)))
  else match index_of_key k with
       | Some i => charAt s i
       | None => None
       end.

(** [v[k]]: reading a property of [undefined] or [null] is a TypeError. *)
Definition getProp (h : heap) (v : value) (k : string) : completion value :=
  match v with
  | VUndefined | VNull => Throw TypeError
  | VRef l => Return (default VUndefined (ownProp (deref h l) k))
  | VStr s => Return (default VUndefined (strProp s k))
  | VBool _ | VNum _ => Return VUndefined
  end.

(** [k in Object(v)]. *)
Definition hasProp (h : heap) (v : value) (k : string) : bool :=
  match v with
  | VRef l => match ownProp (deref h l) k with Some _ => true | None => false end
  | VStr s => match strProp s k with Some _ => true | None => false end
  | _ => false
  end.

(** [o[k] = v] on one object.  Writing an array's length resizes it and
    refuses a negative length; a function's length is read-only. *)
Definition setOwn (o : object) (k : string) (v : value) : completion object :=
  match okind o with
  | KPlain => Return (Object KPlain (setField k v (props o)))
  | KArray elems =>
      if String.eqb k "length" then
        match v with
        | VNum n =>
            if (0 <=? n)%Z then
              Return (Object (KArray (take (Z.to_nat n) elems ++
                         replicate (Z.to_nat n - length elems) VUndefined)) (props o))
            else Throw RangeError
        | _ => Throw RangeError
        end
      else match index_of_key k with
           | Some i =>
               Return (Object (KArray
                 (if (i <? length elems)%nat then <[i:=v]> elems
                  else elems ++ replicate (i - length elems) VUndefined ++ [v]))
                 (props o))
           | None => Return (Object (okind o) (setField k v (props o)))
           end
  | KFunction arity =>
      if String.eqb k "length" then Return o
      else Return (Object (okind o) (setField k v (props o)))
  end.

(** [target[k] = v] in sloppy mode: a TypeError on [undefined] and [null],
    silently nothing on the other primitives. *)
Definition setProp (h : heap) (target : value) (k : string) (v : value)
    : completion heap :=
  match target with
  | VUndefined | VNull => Throw TypeError
  | VRef l => let* o := setOwn (deref h l) k v in Return (<[l:=o]> h)
  | VBool _ | VNum _ | VStr _ => Return h
  end.

End Js.

(** ** The helpers of underscore that base.js calls (underscore 1.8) *)

Module Underscore.
Import Js.

(** [_.isObject]: objects, arrays and functions, never [null]. *)
Definition isObject (v : value) : bool := match v with VRef _ => true | _ => false end.

Definition MAX_ARRAY_INDEX : Z := 2 ^ 53 - 1.

(** A property read that cannot throw because its subject is not nullish. *)
Definition valueAt (h : heap) (v : value) (k : string) : value :=
  match getProp h v k with
  | Return x => x
  | Throw _ => VUndefined
  end.

(** [isArrayLike]: the subject has a numeric [length] within bounds. *)
Definition arrayLikeLength (h : heap) (v : value) : option nat :=
  match v with
  | VUndefined | VNull => None
  | _ => match valueAt h v "length" with
         | VNum n => if ((0 <=? n) && (n <=? MAX_ARRAY_INDEX))%Z
                     then Some (Z.to_nat n) else None
         | _ => None
         end
  end.

(** [_.keys]: the own enumerable keys of an object, none for a primitive. *)
Definition keys (h : heap) (v : value) : list string :=
  match v with
  | VRef l =>
      let o := deref h l in
      match okind o with
      | KArray elems => map key_of_nat (seq 0 (length elems)) ++ map fst (props o)
      | _ => map fst (props o)
      end
  | _ => []
  end.

(** [_.allKeys] walks the prototype chain too, which holds nothing
    enumerable here. *)
Definition allKeys (h : heap) (v : value) : list string := keys h v.

(** The keys that [_.each] visits, in order: the indices of anything
    array-like, the own keys otherwise.  The second component is the key
    as the iteratee receives it. *)
Definition eachKeys (h : heap) (v : value) : list (string * value) :=
  match arrayLikeLength h v with
  | Some n => map (fun i => (key_of_nat i, VNum (Z.of_nat i))) (seq 0 n)
  | None => map (fun k => (k, VStr k)) (keys h v)
  end.

(** The (value, key) pairs that [_.each] hands to an iteratee that leaves
    the store alone. *)
Definition entries (h : heap) (v : value) : list (value * value) :=
  map (fun k => (valueAt h v (fst k), snd k)) (eachKeys h v).

Definition isEmpty (h : heap) (v : value) : bool :=
  match v with
  | VUndefined | VNull => true
  | _ =>
      match arrayLikeLength h v with
      | Some n => if isArray h v || isString v then (n =? 0)%nat
                  else match keys h v with [] => true | _ => false end
      | None => match keys h v with [] => true | _ => false end
      end
  end.

(** [_.last] of an argument list. *)
Definition last (args : list value) : value := default VUndefined (list.last args).

(** [_.extend(target, source)] copies every key of [source] onto [target]
    in place; a nullish target is returned as it is. *)
Definition extend (h : heap) (target source : value) : completion heap :=
  match target with
  | VUndefined | VNull => Return h
  | _ =>
      fold_left
        (fun acc k => let* h' := acc in setProp h' target k (valueAt h' source k))
        (allKeys h source) (Return h)
  end.

(** [_.clone]: a shallow copy; the copy's properties hold the same
    references as the original's. *)
Definition clone (h : heap) (v : value) : completion (heap * value) :=
  match v with
  | VRef l =>
      match okind (deref h l) with
      | KArray elems => Return (alloc h (array elems))
      | _ =>
          let (h0, c) := alloc h (plain []) in
          let* h1 := extend h0 c v in Return (h1, c)
      end
  | _ => Return (h, v)
  end.

(** [_.pick(data, keys)]: a new object with those of the listed keys that
    [data] has. *)
Definition pick (h : heap) (data : value) (ks : list string) : heap * value :=
  alloc h (plain (fold_left
    (fun fs k => if hasProp h data k then setField k (valueAt h data k) fs else fs)
    ks [])).

End Underscore.

(** ** Deferred results, the world and the collaborators *)

Module Runtime.
Import Js.

(** A bluebird promise as its caller finally observes it. *)
Inductive promise :=
| Fulfilled (v : value)
| Rejected (e : error)
| Pending.

(** A synchronous throw inside a [then] handler rejects the derived
    promise; a returned promise is adopted. *)
Definition settle (c : completion promise) : promise :=
  match c with
  | Return p => p
  | Throw e => Rejected e
  end.

Inductive cbarg :=
| ArgError (e : error)
| ArgValue (v : value).

(** One invocation of a caller's completion handler. *)
Record cbcall := CbCall { callee : loc; cbargs : list cbarg }.

(** The store, the statements handed to the driver so far, and the
    invocations of completion handlers so far. *)
Record world := World { store : heap; sent : list string; calls : list cbcall }.

Definition withStore (w : world) (h : heap) : world := World h (sent w) (calls w).

(** What the driver does with a statement: it calls back with [(err, rows)]
    after creating [fresh] objects, throws, or never calls back. *)
Inductive reply :=
| Reply (fresh : list object) (err : value) (rows : value)
| Throws (e : error)
| NoReply.

Record collaborators := Collaborators {
  (** mysql.escape and mysql.escapeId, on a primitive and on an object *)
  escapePrimitive : value -> string;
  escapeObject : heap -> loc -> string;
  escapeIdPrimitive : value -> string;
  escapeIdObject : heap -> loc -> string;
  (** mysql.format *)
  format : heap -> string -> list value -> string;
  (** validate.js: the objects it creates and its result *)
  validateJs : heap -> value -> value -> list object * value;
  (** connection.query, by the statements sent so far (the current one
      last) and the next free location *)
  driver : list string -> nat -> reply;
  (** String.prototype.toUpperCase *)
  toUpperCase : string -> string;
  (** the string an object converts to *)
  objToString : heap -> loc -> string;
  (** whether a string or an object converts to the number 0 *)
  convertsToZero : heap -> value -> bool
}.

(** Effectful code: it may throw, and it changes the world either way. *)
Definition M (A : Type) := world -> completion A * world.

Definition ret {A} (a : A) : M A := fun w => (Return a, w).
Definition throw {A} (e : error) : M A := fun w => (Throw e, w).
Definition bindM {A B} (m : M A) (k : A -> M B) : M B :=
  fun w => match m w with
           | (Return a, w') => k a w'
           | (Throw e, w') => (Throw e, w')
           end.
Definition lift {A} (c : completion A) : M A := fun w => (c, w).
Definition getStore : M heap := fun w => (Return (store w), w).
Definition putStore (h : heap) : M unit := fun w => (Return tt, withStore w h).

Notation "x <- m ;; k" := (bindM m (fun x => k))
  (at level 100, m at next level, right associativity).

(** An argument that was not passed reads as [undefined]. *)
Definition arg (i : nat) (args : list value) : value := nth i args VUndefined.

Definition method := list value -> M promise.

Fixpoint forEach {A} (xs : list A) (body : A -> M unit) : M unit :=
  match xs with
  | [] => ret tt
  | x :: xs' => _ <- body x ;; forEach xs' body
  end.

(** [p.then(handler)] with no rejection handler. *)
Definition andThen (p : promise) (handler : value -> M promise) : M promise :=
  fun w => match p with
           | Fulfilled v => let (c, w') := handler v w in (Return (settle c), w')
           | _ => (Return p, w)
           end.

End Runtime.

(** ** The model *)

Module Base.
Import Js Runtime.

Inductive pkspec :=
| PkField (name : string)
| PkFields (names : list string).

(** The state the constructor stores: [this.table], [this.pk],
    [this.constraints]. *)
Record BaseModel := { table : string; pk : pkspec; constraints : value }.

Definition dquote : string := String (ascii_of_nat 34) EmptyString.

(** [\s] on code units below 256. *)
Definition isSpace (c : ascii) : bool :=
  let n := nat_of_ascii c in
  ((9 <=? n) && (n <=? 13) || (n =? 32) || (n =? 160))%nat.

(** The test of the first branch: one or more characters, none of them
    white space, [=], [<], [>] or a double quote. *)
Definition pkShaped (s : string) : bool :=
  negb (String.eqb s "") &&
  forallb (fun c => negb (isSpace c || Ascii.eqb c "="%char || Ascii.eqb c "<"%char
                          || Ascii.eqb c ">"%char || Ascii.eqb c (ascii_of_nat 34)))
          (list_ascii_of_string s).

Definition lowcase (c : ascii) : ascii :=
  let n := nat_of_ascii c in
  if ((65 <=? n) && (n <=? 90))%nat then ascii_of_nat (n + 32) else c.

Fixpoint lowcaseString (s : string) : string :=
  match s with
  | EmptyString => EmptyString
  | String c rest => String (lowcase c) (lowcaseString rest)
  end.

(** The test of [queryOne]: the word select somewhere, in any mix of
    upper and lower case. *)
Fixpoint mentionsSelect (s : string) : bool :=
  match s with
  | EmptyString => false
  | String _ rest => String.prefix "select" (lowcaseString s) || mentionsSelect rest
  end.

(** The test for a wildcard: a percent sign or a question mark somewhere. *)
Definition hasWildcard (s : string) : bool :=
  existsb (fun c => Ascii.eqb c "%"%char || Ascii.eqb c "?"%char) (list_ascii_of_string s).

Section Model.

Variable E : collaborators.
Variable this : BaseModel.

(** JavaScript's ToString. *)
Definition toStr (h : heap) (v : value) : string :=
  match v with
  | VUndefined => "undefined"
  | VNull => "null"
  | VBool true => "true"
  | VBool false => "false"
  | VNum n => string_of_Z n
  | VStr s => s
  | VRef l => objToString E h l
  end.

(** [mysql.escape] and [mysql.escapeId]. *)
Definition escape (h : heap) (v : value) : string :=
  match v with
  | VRef l => escapeObject E h l
  | _ => escapePrimitive E v
  end.

Definition escapeId (h : heap) (v : value) : string :=
  match v with
  | VRef l => escapeIdObject E h l
  | _ => escapeIdPrimitive E v
  end.

(** [x == 0]. *)
Definition looseEqZero (h : heap) (x : value) : bool :=
  match x with
  | VUndefined | VNull => false
  | VBool b => negb b
  | VNum n => (n =? 0)%Z
  | VStr _ | VRef _ => convertsToZero E h x
  end.

(** [Array.prototype.join]. *)
Definition join (h : heap) (sep : string) (xs : list value) : string :=
  String.concat sep
    (map (fun x => match x with VUndefined | VNull => EmptyString | _ => toStr h x end) xs).

(** [x.toUpperCase()]: only a string has the method. *)
Definition upper (x : value) : completion string :=
  match x with
  | VStr s => Return (toUpperCase E s)
  | _ => Throw TypeError
  end.

(** [this.pk] used as a property key. *)
Definition pkKey : string :=
  match pk this with
  | PkField name => name
  | PkFields names => String.concat "," names
  end.

Definition missing (key : string) : error :=
  DbError "invalid_call"
    (VStr ("missing " +:+ dquote +:+ key +:+ dquote +:+ " for composite primary key")).

(** lib/base.js, [buildPkCondition].  The object [condition] is private
    until it is returned: its properties are collected and the object is
    created on return. *)
Definition buildPkCondition (h : heap) (data : value) : completion (heap * value) :=
  let* condition :=
    match pk this with
    | PkFields names =>
        if Underscore.isObject data then
          fold_left (fun acc key =>
                       let* condition := acc in
                       let* x := getProp h data key in
                       if negb (truthy x) then Throw (missing key)
                       else Return (setField key x condition))
                    names (Return [])
        else if isArray h VUndefined then
          fold_left (fun acc ki =>
                       let* condition := acc in
                       let* x := getProp h data (key_of_nat (snd ki)) in
                       if negb (truthy x) then Throw (missing (fst ki))
                       else Return (setField (fst ki) x condition))
                    (zip names (seq 0 (length names))) (Return [])
        else Throw (DbError "invalid_call" (VStr "invalid input for composite primary key"))
    | PkField name =>
        if Underscore.isObject data then
          let* x := getProp h data name in
          if isUndefined x then Throw (JsError "missing primary key")
          else Return (setField name x [])
        else Return (setField name data [])
    end in
  Return (alloc h (plain condition)).

(** One round of the loop of [compileConditions] over an item
    [[key, value]], with the string and the counter so far. *)
Definition compileItem (h : heap) (item : value * value) (st : string * nat)
    : completion (string * nat) :=
  let '(key, value) := item in
  let '(str, i) := st in
  let* (operator, conjn, value) :=
    match value with
    | VRef l =>
        match okind (deref h l) with
        | KArray tuple =>
            let* conjn :=
              if (length tuple =? 3)%nat then upper (nth 2 tuple VUndefined)
              else Return "AND" in
            if (2 <=? length tuple)%nat then
              let* operator := upper (nth 0 tuple VUndefined) in
              Return (operator, conjn, nth 1 tuple VUndefined)
            else Throw (DbError "invalid_param" (VStr "not enough params for condition"))
        | _ => Return ("=", "AND", value)
        end
    | _ => Return ("=", "AND", value)
    end in
  let value :=
    if String.eqb operator "LIKE" && negb (hasWildcard (toStr h value))
    then VStr ("%" +:+ toStr h value +:+ "%") else value in
  let str := if (0 <? i)%nat then str +:+ " " +:+ conjn +:+ " " else str in
  Return (str +:+ "(" +:+ escapeId h key +:+ " " +:+ operator +:+ " "
              +:+ escape h value +:+ ")", S i).

(** The loop: each item is read as [item[0]], [item[1]] when its turn comes. *)
Definition compileItems (h : heap) (items : list (completion (value * value)))
    : completion string :=
  let* (str, _) :=
    fold_left (fun acc item => let* st := acc in let* kv := item in compileItem h kv st)
              items (Return (EmptyString, 0%nat)) in
  Return (if String.eqb str "" then EmptyString else " WHERE " +:+ str).

(** The items of an object given as conditions: its (key, value) pairs as
    [_.each] enumerates them; [None] when [_.isEmpty] holds. *)
Definition objectItems (h : heap) (conditions : value)
    : option (list (completion (value * value))) :=
  if Underscore.isEmpty h conditions then None
  else Some (map (fun vk => Return (snd vk, fst vk)) (Underscore.entries h conditions)).

(** [item[0]] and [item[1]], as the loop reads them. *)
Definition readItem (h : heap) (item : value) : completion (value * value) :=
  let* key := getProp h item "0" in
  let* value := getProp h item "1" in
  Return (key, value).

(** The items of anything else, read by position. *)
Definition listItems (h : heap) (conditions : value)
    : list (completion (value * value)) :=
  map (fun vk => readItem h (fst vk)) (Underscore.entries h conditions).

(** lib/base.js, [compileConditions].  The object built for a bare
    primary key is local to the call: it is held in a store extended for
    this call only.  The second test of the first [if] reads the variable
    [condition], which is declared nowhere. *)
Definition compileConditions (h : heap) (conditions : value) : completion string :=
  let* (h, conditions) :=
    if isNumber conditions
       || (isString conditions && pkShaped (toStr h conditions)) then
      Return (alloc h (plain (setField pkKey conditions [])))
    else if isString conditions then Throw (ReferenceError "condition")
    else Return (h, conditions) in
  if Underscore.isObject conditions && negb (isArray h conditions) then
    match objectItems h conditions with
    | None => Return EmptyString
    | Some items => compileItems h items
    end
  else compileItems h (listItems h conditions).

(** lib/base.js, [compileOptions]. *)
Definition compileOptions (h : heap) (options : value) : string :=
  match options with
  | VStr s => s
  | VRef _ =>
      let orderBy := Underscore.valueAt h options "orderBy" in
      let limit := Underscore.valueAt h options "limit" in
      let start := Underscore.valueAt h options "start" in
      let str := if truthy orderBy then " ORDER BY " +:+ toStr h orderBy else EmptyString in
      if truthy limit then
        let parts :=
          match limit with
          | VRef l =>
              match okind (deref h l) with
              | KArray elems => elems
              | _ => (if truthy start then [start] else []) ++ [limit]
              end
          | _ => (if truthy start then [start] else []) ++ [limit]
          end in
        str +:+ " LIMIT " +:+ join h ", " parts
      else str
  | _ => EmptyString
  end.

(** *** The two wrapping layers *)

(** lib/base.js, [bindPromise], for [query] called with one statement: the
    statement goes to the driver with a completion handler that settles the
    deferred. *)
Definition query (sql : string) : M promise :=
  fun w =>
    let stmts := sent w ++ [sql] in
    match driver E stmts (length (store w)) with
    | Reply fresh err rows =>
        (Return (if truthy err then Rejected (Reason err) else Fulfilled rows),
         World (store w ++ fresh) stmts (calls w))
    | Throws e => (Return (Rejected e), World (store w) stmts (calls w))
    | NoReply => (Return Pending, World (store w) stmts (calls w))
    end.

Definition invoke (cb : loc) (args : list cbarg) : M unit :=
  fun w => (Return tt, World (store w) (sent w) (calls w ++ [CbCall cb args])).

(** The function that the last argument is, if it is one. *)
Definition trailingCallback (h : heap) (args : list value) : option loc :=
  match Underscore.last args with
  | VRef f => if isFunction h (VRef f) then Some f else None
  | _ => None
  end.

(** lib/base.js, [bindCallback]: the method installed in place of
    [oldMethod]. *)
Definition bindCallback (oldMethod : method) : method :=
  fun args =>
    h <- getStore ;;
    let cb := trailingCallback h args in
    let args := match cb with Some _ => removelast args | None => args end in
    promise <- oldMethod args ;;
    match cb with
    | Some f =>
        match promise with
        | Fulfilled data => _ <- invoke f [ArgValue VNull; ArgValue data] ;; ret promise
        | Rejected error => _ <- invoke f [ArgError error] ;; ret promise
        | Pending => ret promise
        end
    | None => ret promise
    end.

(** *** The methods.  [proto_m] is [BaseModel.prototype.m]; [m] is the
    method of that name on a constructed model, which the constructor has
    wrapped with [bindCallback].  Logging is left out. *)

Definition proto_search : method :=
  fun args =>
    let conditions := arg 0 args in
    let options := arg 1 args in
    h <- getStore ;;
    let sql := format E h "SELECT * FROM ??" [VStr (table this)] in
    where_ <- lift (compileConditions h conditions) ;;
    query (sql +:+ where_ +:+ compileOptions h options).

Definition search : method := bindCallback proto_search.

(** The handler that [find] chains on the rows:
    [rows.length == 0 ? null : rows[0]]. *)
Definition firstRow (rows : value) : M promise :=
  h <- getStore ;;
  len <- lift (getProp h rows "length") ;;
  if looseEqZero h len then ret (Fulfilled VNull)
  else row <- lift (getProp h rows "0") ;; ret (Fulfilled row).

Definition proto_find : method :=
  fun args =>
    let conditions := arg 0 args in
    let options := arg 1 args in
    h <- getStore ;;
    let (h, options) := if truthy options then (h, options) else alloc h (plain []) in
    _ <- putStore h ;;
    h <- lift (setProp h options "limit" (VNum 1)) ;;
    _ <- putStore h ;;
    promise <- search [conditions; options] ;;
    andThen promise firstRow.

Definition find : method := bindCallback proto_find.

Definition proto_findByPk : method :=
  fun args => find [arg 0 args; arg 1 args].

Definition findByPk : method := bindCallback proto_findByPk.

(** [BaseModel.prototype.remove] and [BaseModel.prototype.delete] are one
    function; the constructor wraps [delete] only. *)
Definition remove : method :=
  fun args =>
    let conditions := arg 0 args in
    h <- getStore ;;
    let sql := format E h "DELETE FROM ??" [VStr (table this)] in
    where_ <- lift (compileConditions h conditions) ;;
    query (sql +:+ where_).

Definition delete : method := bindCallback remove.

(** lib/base.js, [validate]. *)
Definition validate (data constraints : value) : M value :=
  constraints <-
    match constraints with
    | VBool true => ret (Base.constraints this)
    | _ =>
        let constraints2 := constraints in
        h <- getStore ;;
        hc <- lift (Underscore.clone h (Base.constraints this)) ;;
        let (h, constraints) := hc in
        _ <- putStore h ;;
        _ <- forEach (Underscore.eachKeys h constraints2) (fun key =>
               h <- getStore ;;
               let value := Underscore.valueAt h constraints2 (fst key) in
               target <- lift (getProp h constraints (fst key)) ;;
               h <- lift (Underscore.extend h target value) ;;
               putStore h) ;;
        ret constraints
    end ;;
  h <- getStore ;;
  let (fresh, errors) := validateJs E h data constraints in
  _ <- putStore (h ++ fresh) ;;
  ret errors.

Definition proto_insert : method :=
  fun args =>
    let data := arg 0 args in
    let constraints := arg 1 args in
    _ <- (if truthy constraints then
            errors <- validate data constraints ;;
            if truthy errors then throw (DbError "validition" errors) else ret tt
          else ret tt) ;;
    h <- getStore ;;
    let (h, data) := Underscore.pick h data (Underscore.keys h (Base.constraints this)) in
    _ <- putStore h ;;
    query (format E h "INSERT INTO ?? SET ?" [VStr (table this); data]).

Definition insert : method := bindCallback proto_insert.

Definition proto_update : method :=
  fun args =>
    let conditions := arg 0 args in
    let data := arg 1 args in
    let constraints := arg 2 args in
    _ <- (if truthy constraints then
            h <- getStore ;;
            let (fresh, errors) := validateJs E h conditions constraints in
            _ <- putStore (h ++ fresh) ;;
            if truthy errors then throw (DbError "validition" errors) else ret tt
          else ret tt) ;;
    h <- getStore ;;
    let (h, data) := Underscore.pick h data (Underscore.keys h (Base.constraints this)) in
    _ <- putStore h ;;
    let sql := format E h "UPDATE ?? SET ?" [VStr (table this); data] in
    where_ <- lift (compileConditions h conditions) ;;
    query (sql +:+ where_).

Definition update : method := bindCallback proto_update.

Definition proto_replace : method :=
  fun args =>
    let data := arg 0 args in
    let constraints := arg 1 args in
    h <- getStore ;;
    hc <- lift (buildPkCondition h data) ;;
    let (h, condition) := hc in
    _ <- putStore h ;;
    _ <- (if isUndefined condition
          then throw (DbError "invalid_param" (VStr "missing primary key"))
          else ret tt) ;;
    promise <- find [condition] ;;
    andThen promise (fun row =>
      if truthy row then update [condition; data; constraints]
      else insert [data; constraints]).

Definition replace : method := bindCallback proto_replace.

(** *** The methods that the constructor leaves unwrapped *)

(** lib/base.js, [findOne]. *)
Definition findOne : method :=
  fun args =>
    let field := arg 0 args in
    let conditions := arg 1 args in
    let options := arg 2 args in
    promise <- find [conditions; options] ;;
    andThen promise (fun row =>
      if isNull row then ret (Fulfilled VUndefined)
      else h <- getStore ;;
           x <- lift (getProp h row (toStr h field)) ;;
           ret (Fulfilled x)).

(** lib/base.js, [findAll]. *)
Definition findAll : method :=
  fun args =>
    let options := arg 0 args in
    h <- getStore ;;
    let (h, conditions) := alloc h (plain []) in
    _ <- putStore h ;;
    search [conditions; options].

(** The handler that [queryOne] chains on the rows: nothing for no row,
    the first column of the first row otherwise. *)
Definition firstColumn (rows : value) : M promise :=
  h <- getStore ;;
  len <- lift (getProp h rows "length") ;;
  if looseEqZero h len then ret (Fulfilled VUndefined)
  else row <- lift (getProp h rows "0") ;;
       let keys := Underscore.keys h row in
       x <- lift (getProp h row (match keys with k :: _ => k | [] => "undefined" end)) ;;
       ret (Fulfilled x).

(** lib/base.js, [queryOne], called with one statement. *)
Definition queryOne (sql : string) : M promise :=
  _ <- (if negb (mentionsSelect sql)
        then throw (DbError "invalid_call" (VStr ("only select allowed: " +:+ sql)))
        else ret tt) ;;
  promise <- query sql ;;
  andThen promise firstColumn.

End Model.
End Base.

(** ** A concrete setting: a table [user] and simple collaborators *)

Module Sample.
Import Js Runtime Base.

Definition quoted (q s : string) : string := q +:+ s +:+ q.

Definition primToString (v : value) : string :=
  match v with
  | VUndefined => "undefined"
  | VNull => "null"
  | VBool true => "true"
  | VBool false => "false"
  | VNum n => string_of_Z n
  | VStr s => s
  | VRef _ => "[object Object]"
  end.

Definition sqlValue (v : value) : string :=
  match v with
  | VUndefined | VNull => "NULL"
  | VStr s => quoted "'" s
  | _ => primToString v
  end.

Definition sqlName (v : value) : string := quoted "`" (primToString v).

(** Placeholders: a doubled question mark takes an identifier, a single
    one a value. *)
Fixpoint sqlFormat (tpl : string) (vals : list value) : string :=
  match tpl with
  | EmptyString => EmptyString
  | String c rest =>
      if Ascii.eqb c "?"%char then
        match rest, vals with
        | String c' rest', v :: vals' =>
            if Ascii.eqb c' "?"%char then sqlName v +:+ sqlFormat rest' vals'
            else sqlValue v +:+ sqlFormat rest vals'
        | EmptyString, v :: _ => sqlValue v
        | _, [] => String c (sqlFormat rest vals)
        end
      else String c (sqlFormat rest vals)
  end.

Definition upcase (c : ascii) : ascii :=
  let n := nat_of_ascii c in
  if ((97 <=? n) && (n <=? 122))%nat then ascii_of_nat (n - 32) else c.

Fixpoint upcaseString (s : string) : string :=
  match s with
  | EmptyString => EmptyString
  | String c rest => String (upcase c) (upcaseString rest)
  end.

(** A driver over a table holding the one row [{id: 7}]: a SELECT that
    mentions 7 finds it, any other SELECT finds nothing, and any other
    statement is acknowledged. *)
Definition mentions7 (s : string) : bool :=
  existsb (Ascii.eqb "7"%char) (list_ascii_of_string s).

Definition isSelect (s : string) : bool := String.prefix "SELECT" s.

Definition tableDriver (stmts : list string) (next : nat) : reply :=
  match list.last stmts with
  | Some s =>
      if isSelect s then
        if mentions7 s then Reply [plain [("id", VNum 7)]; array [VRef next]] VNull (VRef (S next))
        else Reply [array []] VNull (VRef next)
      else Reply [plain [("affectedRows", VNum 1)]] VNull (VRef next)
  | None => NoReply
  end.

(** A driver whose connection is lost. *)
Definition failingDriver (stmts : list string) (next : nat) : reply :=
  Reply [] (VStr "PROTOCOL_CONNECTION_LOST") VUndefined.

Definition withDriver (d : list string -> nat -> reply) : collaborators :=
  {| escapePrimitive := sqlValue;
     escapeObject := fun _ _ => "[object Object]";
     escapeIdPrimitive := sqlName;
     escapeIdObject := fun _ _ => "`[object Object]`";
     format := fun _ => sqlFormat;
     validateJs := fun _ _ _ => ([], VUndefined);
     driver := d;
     toUpperCase := upcaseString;
     objToString := fun _ _ => "[object Object]";
     convertsToZero := fun _ _ => false |}.

Definition E0 : collaborators := withDriver tableDriver.

Definition user : BaseModel := {| table := "user"; pk := PkField "id"; constraints := VRef 0 |}.

Definition membership : BaseModel :=
  {| table := "membership"; pk := PkFields ["tenant"; "id"]; constraints := VRef 0 |}.

(** The store after construction: the configured constraints and the
    rule object of their one field. *)
Definition h0 : heap :=
  [plain [("username", VRef 1)]; plain [("presence", VBool true)]].

Definition w0 : world := World h0 [] [].

(** Two conditions in list form, the second with the one-element tuple
    [["LIKE"]]. *)
Definition shortTupleStore : list object :=
  h0 ++ [array [VRef 3; VRef 4]; array [VStr "username"; VStr "king"];
         array [VStr "email"; VRef 5]; array [VStr "LIKE"]].

(** A keyed mapping at 2 whose field [email] holds the empty tuple. *)
Definition shortFieldStore : list object :=
  h0 ++ [plain [("username", VStr "king"); ("email", VRef 3)]; array []].

(** A model whose store holds a completion handler at location 2. *)
Definition handlerStore : list object := h0 ++ [func 2].

(** A model whose store holds caller's options at location 2. *)
Definition optionsStore : list object :=
  h0 ++ [plain [("orderBy", VStr "id ASC"); ("limit", VNum 10); ("start", VNum 50)]].

(** Records for [replace]: key 7 is in the table, key 99 is not. *)
Definition recordStore : list object :=
  h0 ++ [plain [("id", VNum 7); ("username", VStr "king")];
         plain [("id", VNum 99); ("username", VStr "queen")]].

(** The conditions and options of the README: a mapping at 2, a list at
    3, options at 8. *)
Definition readmeStore : list object :=
  h0 ++ [plain [("username", VStr "user1"); ("password", VStr "123456")];
         array [VRef 4; VRef 6];
         array [VStr "username"; VRef 5]; array [VStr "LIKE"; VStr "super%"];
         array [VStr "username"; VRef 7]; array [VStr "LIKE"; VStr "spider"; VStr "OR"];
         plain [("orderBy", VStr "`add_time` DESC"); ("limit", VNum 10); ("start", VNum 50)]].

(** Two conditions given in full, as a list at 2. *)
Definition termStore : list object :=
  h0 ++ [array [VRef 3; VRef 5];
         array [VStr "username"; VRef 4]; array [VStr "like"; VStr "super%"; VStr "and"];
         array [VStr "email"; VRef 6]; array [VStr "<>"; VStr "a@b.c"; VStr "or"]].

(** One LIKE condition with no wildcard, as a list at 2. *)
Definition likeStore : list object :=
  h0 ++ [array [VRef 3]; array [VStr "username"; VRef 4]; array [VStr "like"; VStr "spider"]].

(** Records for a composite key: a full one at 2, one with a zero at 3. *)
Definition compositeStore : list object :=
  h0 ++ [plain [("tenant", VStr "a"); ("id", VNum 7)];
         plain [("tenant", VStr "a"); ("id", VNum 0)]].

(** Collaborators whose validate.js rejects every record. *)
Definition strict : collaborators :=
  {| escapePrimitive := sqlValue;
     escapeObject := fun _ _ => "[object Object]";
     escapeIdPrimitive := sqlName;
     escapeIdObject := fun _ _ => "`[object Object]`";
     format := fun _ => sqlFormat;
     validateJs := fun h _ _ => ([plain [("username", VStr "is invalid")]], VRef (length h));
     driver := tableDriver;
     toUpperCase := upcaseString;
     objToString := fun _ _ => "[object Object]";
     convertsToZero := fun _ _ => false |}.

End Sample.

(** ** Properties of the model *)

Import Js Runtime Base.

(** A call passes an empty condition when the argument is omitted, is
    [undefined], or is a mapping with no field. *)
Definition emptyOrAbsent (h : heap) (args : list value) : Prop :=
  args = [] \/ args = [VUndefined] \/ exists l, args = [VRef l] /\ h !! l = Some (plain []).

Definition primitive (v : value) : bool := match v with VRef _ => false | _ => true end.

(** A bare scalar condition: a number, or a string of the primary-key
    shape. *)
Definition scalarCondition (v : value) : bool :=
  match v with
  | VNum _ => true
  | VStr s => pkShaped s
  | _ => false
  end.

Definition primitiveItem (item : completion (value * value)) : Prop :=
  exists k v, item = Return (k, v) /\ primitive k = true /\ primitive v = true.

(** An item of a list of conditions compiles when reading it and running
    one round of the loop on it throws nothing. *)
Definition itemCompiles (E : collaborators) (h : heap) (item : value) : bool :=
  match (let* kv := readItem h item in compileItem E h kv (EmptyString, 0%nat)) with
  | Return _ => true
  | Throw _ => false
  end.

(** The methods that the constructor hands to [bindCallback], each with
    the function it wraps. *)
Definition wrappedMethods (E : collaborators) (this : BaseModel) : list (method * method) :=
  [(search E this, proto_search E this);
   (find E this, proto_find E this);
   (findByPk E this, proto_findByPk E this);
   (insert E this, proto_insert E this);
   (update E this, proto_update E this);
   (replace E this, proto_replace E this);
   (delete E this, remove E this)].

(** What a caller who passed the handler [f] observes, given what the
    wrapped function did: a fulfilled result and one call [f(null, data)];
    a rejected result and one call [f(error)]; a pending result or a
    synchronous throw, and no call. *)
Definition notified (f : loc) (r : completion promise * world) : completion promise * world :=
  match r with
  | (Return (Fulfilled data), w) =>
      (Return (Fulfilled data),
       World (store w) (sent w) (calls w ++ [CbCall f [ArgValue VNull; ArgValue data]]))
  | (Return (Rejected e), w) =>
      (Return (Rejected e), World (store w) (sent w) (calls w ++ [CbCall f [ArgError e]]))
  | (Return Pending, w) => (Return Pending, w)
  | (Throw e, w) => (Throw e, w)
  end.

(** A run only adds objects to the store. *)
Definition grows (w w' : world) : Prop := exists fresh, store w' = store w ++ fresh.

(** What a [then] handler that delegates to a method yields: the
    method's promise, or a rejection when the method throws. *)
Definition delegated (r : completion promise * world) : completion promise * world :=
  (Return (settle (fst r)), snd r).

(** The clause that the loop adds for a field compared for equality. *)
Definition equalityClause (E : collaborators) (h : heap) (kv : string * value) : string :=
  "(" +:+ escapeId E h (VStr (fst kv)) +:+ " = " +:+ escape E h (snd kv) +:+ ")".

(** A WHERE string made of clauses joined by AND; nothing for no clause. *)
Definition whereOf (clauses : list string) : string :=
  match clauses with
  | [] => EmptyString
  | _ => " WHERE " +:+ String.concat " AND " clauses
  end.

(** One round of the loop on a clause joined by AND. *)
Definition glue (st : string * nat) (c : string) : string * nat :=
  ((if (0 <? snd st)%nat then fst st +:+ " AND " else fst st) +:+ c, S (snd st)).

Fixpoint tailOf (cs : list string) : string :=
  match cs with
  | [] => EmptyString
  | c :: cs' => " AND " +:+ c +:+ tailOf cs'
  end.

(** The value that the loop escapes for an operator and its operand: a
    LIKE operand without wildcard is put between percent signs. *)
Definition operand (E : collaborators) (h : heap) (operator : string) (v : value) : value :=
  if String.eqb operator "LIKE" && negb (hasWildcard (toStr E h v))
  then VStr ("%" +:+ toStr E h v +:+ "%") else v.

(** What the primary-key resolver reads from a record under a scalar
    key: the record itself when it is no object, its key field otherwise. *)
Definition resolves (h : heap) (f : string) (data x : value) : Prop :=
  (Underscore.isObject data = false /\ x = data)
  \/ (exists l, data = VRef l /\ getProp h data f = Return x /\ x <> VUndefined).

(** A condition of a list given in full: key, operator, operand and
    conjunction. *)
Record term := Term { tkey : value; top : string; tval : value; tconj : string }.

(** The clause that the loop adds for a term. *)
Definition termClause (E : collaborators) (h : heap) (d : term) : string :=
  "(" +:+ escapeId E h (tkey d) +:+ " " +:+ toUpperCase E (top d) +:+ " "
      +:+ escape E h (operand E h (toUpperCase E (top d)) (tval d)) +:+ ")".

(** The clauses after the first, each behind its own conjunction. *)
Fixpoint continued (E : collaborators) (h : heap) (ds : list term) : string :=
  match ds with
  | [] => EmptyString
  | d :: ds' =>
      " " +:+ toUpperCase E (tconj d) +:+ " " +:+ termClause E h d +:+ continued E h ds'
  end.

(** The item [[key, [operator, operand, conjunction]]] in the store. *)
Definition termItem (h : heap) (item : value) (d : term) : Prop :=
  exists li lt, item = VRef li
    /\ h !! li = Some (array [tkey d; VRef lt])
    /\ h !! lt = Some (array [VStr (top d); tval d; VStr (tconj d)]).

(** From one world to a later one, at most [n] statements went to the
    driver, and the statements sent before are as they were. *)
Definition sendsAtMost (n : nat) (w w' : world) : Prop :=
  exists stmts, sent w' = sent w ++ stmts /\ length stmts <= n.

Definition sends {A} (n : nat) (m : M A) : Prop :=
  forall w, sendsAtMost n w (snd (m w)).

(** The arguments that a wrapped method hands to the function it wraps:
    all of them, or all but a trailing handler. *)
Definition handedOn (h : heap) (args : list value) : list value :=
  match trailingCallback h args with
  | Some _ => removelast args
  | None => args
  end.

(** A (key, value) pair compiles when one round of the loop on it throws
    nothing. *)
Definition pairCompiles (E : collaborators) (h : heap) (kv : value * value) : bool :=
  match compileItem E h kv (EmptyString, 0%nat) with
  | Return _ => true
  | Throw _ => false
  end.

(** A descriptor that holds an operator tuple of fewer than two elements,
    behind items that compile: a list whose item [[key, tuple]] comes after
    the items [pre], or a keyed mapping, not array-like, whose field
    [k := tuple] comes after the fields [pre]. *)
Inductive shortTuple (E : collaborators) (h : heap) : value -> Prop :=
| ShortInList (l li lv : loc) (pre post more tuple : list value) (key : value) :
    okind (deref h l) = KArray (pre ++ VRef li :: post) ->
    forallb (itemCompiles E h) pre = true ->
    okind (deref h li) = KArray (key :: VRef lv :: more) ->
    okind (deref h lv) = KArray tuple ->
    length tuple < 2 ->
    shortTuple E h (VRef l)
| ShortInMapping (l lv : loc) (pre post : list (string * value)) (k : string)
      (tuple : list value) :
    h !! l = Some (plain (pre ++ (k, VRef lv) :: post)) ->
    NoDup (map fst (pre ++ (k, VRef lv) :: post)) ->
    Underscore.arrayLikeLength h (VRef l) = None ->
    forallb (fun kv => pairCompiles E h (VStr (fst kv), snd kv)) pre = true ->
    okind (deref h lv) = KArray tuple ->
    length tuple < 2 ->
    shortTuple E h (VRef l).

(** A call that throws [e] at once: no statement has gone to the driver
    and no handler has been called. *)
Definition throwsUnsent (e : error) (w : world) (r : completion promise * world) : Prop :=
  fst r = Throw e /\ sent (snd r) = sent w /\ calls (snd r) = calls w.

(** [update] gets past its validation: no constraints were passed, or
    validate.js reports nothing. *)
Definition passesValidation (E : collaborators) (h : heap) (conditions constraints : value)
    : Prop :=
  truthy constraints = false
  \/ truthy (snd (validateJs E h conditions constraints)) = false.

(** A store is closed when every reference that one of its objects holds
    is to one of its objects, as in any JavaScript heap. *)
Definition allocated (h : heap) (v : value) : bool :=
  match v with
  | VRef l => (l <? length h)%nat
  | _ => true
  end.

Definition held (o : object) : list value :=
  match okind o with KArray elems => elems | _ => [] end ++ map snd (props o).

Definition closed (h : heap) : bool :=
  forallb (fun o => forallb (allocated h) (held o)) h.

(** Two objects of one kind, with the same elements, whose properties
    differ in [limit] at most. *)
Definition sameObject (o o' : object) : Prop :=
  okind o' = okind o
  /\ forall k, k <> "limit"%string -> lookupField k (props o') = lookupField k (props o).

Definition same (h h' : heap) (v : value) : Prop :=
  match v with
  | VRef l => sameObject (deref h l) (deref h' l)
  | _ => True
  end.

(** What the loop reads of a descriptor: the descriptor, its items, and
    the value of each item. *)
Definition reach (h : heap) (c v : value) : Prop :=
  v = c
  \/ exists l item, c = VRef l /\ In item (held (deref h l))
       /\ (v = item \/ v = Underscore.valueAt h item "1").

Lemma append_empty_r (s : string) : s +:+ EmptyString = s.
Proof.
  induction s as [|c s IH]; [reflexivity|].
  change (String c (s +:+ EmptyString) = String c s). now rewrite IH.
Qed.

Lemma deref_lookup (h : heap) (l : loc) (o : object) :
  h !! l = Some o -> deref h l = o.
Proof. intros H. unfold deref. now rewrite H. Qed.

Lemma setField_nil (k : string) (v : value) : setField k v [] = [(k, v)].
Proof. unfold setField. simpl. destruct (index_of_key k); reflexivity. Qed.

Lemma fold_throw_missing {A B} (f : completion A -> B -> completion A) (xs : list B) (e : error) :
  (forall x, f (Throw e) x = Throw e) -> fold_left f xs (Throw e) = Throw e.
Proof. intros Hf. induction xs as [|x xs IH]; simpl; [reflexivity | now rewrite Hf]. Qed.

Lemma deref_alloc (h : heap) (o : object) : deref (h ++ [o]) (length h) = o.
Proof.
  unfold deref. rewrite lookup_app_r by lia. now rewrite Nat.sub_diag.
Qed.

(** *** Arrays and their indices *)

Lemma to_uint_nonnil (n : nat) : Nat.to_uint n <> Decimal.Nil.
Proof.
  rewrite <- (Unsigned.of_to n) at 1. rewrite Unsigned.to_of. apply unorm_nonnil.
Qed.

Lemma index_of_key_of_nat (i : nat) : index_of_key (key_of_nat i) = Some i.
Proof.
  unfold index_of_key, key_of_nat.
  rewrite NilZero.usu by apply to_uint_nonnil.
  rewrite Unsigned.of_to. now rewrite String.eqb_refl.
Qed.

Lemma key_of_nat_not_length (i : nat) : String.eqb (key_of_nat i) "length" = false.
Proof.
  apply String.eqb_neq. intros Heq.
  pose proof (index_of_key_of_nat i) as Hi. rewrite Heq in Hi. discriminate Hi.
Qed.

Lemma array_valueAt (h : list object) (l : nat) (elems : list value)
    (ps : list (string * value)) (i : nat) (x : value) :
  h !! l = Some (Object (KArray elems) ps) -> elems !! i = Some x ->
  Underscore.valueAt h (VRef l) (key_of_nat i) = x.
Proof.
  intros Hl Hi. unfold Underscore.valueAt. simpl. rewrite (deref_lookup _ _ _ Hl).
  unfold ownProp. simpl. rewrite key_of_nat_not_length, index_of_key_of_nat, Hi. reflexivity.
Qed.

Lemma array_eachKeys (h : list object) (l : nat) (elems : list value) :
  h !! l = Some (array elems) ->
  map fst (Underscore.eachKeys h (VRef l)) = map key_of_nat (seq 0 (length elems)).
Proof.
  intros Hl. unfold Underscore.eachKeys, Underscore.arrayLikeLength, Underscore.valueAt,
    Underscore.keys. simpl. rewrite (deref_lookup _ _ _ Hl). simpl.
  destruct ((0 <=? Z.of_nat (length elems))%Z && _)%bool.
  - rewrite Nat2Z.id, map_map. reflexivity.
  - rewrite app_nil_r, map_map. simpl. now rewrite map_id.
Qed.

Lemma array_entries (h : list object) (l : nat) (elems : list value) :
  h !! l = Some (array elems) ->
  map fst (Underscore.entries h (VRef l)) = elems.
Proof.
  intros Hl. unfold Underscore.entries. rewrite map_map. simpl.
  rewrite <- (map_map fst (fun k => Underscore.valueAt h (VRef l) k)).
  rewrite (array_eachKeys _ _ _ Hl), map_map.
  apply list_eq. intros i. rewrite list_lookup_fmap.
  destruct (elems !! i) as [x|] eqn:Hi.
  - rewrite (lookup_seq_lt _ _ _) by (now apply lookup_lt_Some in Hi). simpl.
    now rewrite (array_valueAt _ _ _ _ _ _ Hl Hi).
  - rewrite lookup_seq_ge; [reflexivity|]. now apply lookup_ge_None in Hi.
Qed.

Lemma lookupField_replaceField_ne (k k' : string) (v : value) (fs : list (string * value)) :
  k' <> k -> lookupField k' (replaceField k v fs) = lookupField k' fs.
Proof.
  intros Hne. unfold lookupField. induction fs as [|[a x] fs IH]; simpl; [reflexivity|].
  destruct (String.eqb a k) eqn:Hak; simpl.
  - apply String.eqb_eq in Hak as ->.
    destruct (String.eqb k k') eqn:Hkk; [|reflexivity].
    apply String.eqb_eq in Hkk. congruence.
  - destruct (String.eqb a k'); [reflexivity | exact IH].
Qed.

Lemma lookupField_replaceField_eq (k : string) (v x : value) (fs : list (string * value)) :
  lookupField k fs = Some x -> lookupField k (replaceField k v fs) = Some v.
Proof.
  unfold lookupField. induction fs as [|[a y] fs IH]; simpl; [discriminate|].
  destruct (String.eqb a k) eqn:Hak; simpl; rewrite Hak; simpl; [reflexivity | exact IH].
Qed.

Lemma lookupField_snoc (k k' : string) (v : value) (fs : list (string * value)) :
  lookupField k' (fs ++ [(k, v)]) =
  match lookupField k' fs with
  | Some x => Some x
  | None => if String.eqb k k' then Some v else None
  end.
Proof.
  unfold lookupField. induction fs as [|[a y] fs IH]; simpl.
  - destruct (String.eqb k k'); reflexivity.
  - destruct (String.eqb a k'); [reflexivity | exact IH].
Qed.

(** [limit] is not an index, so writing it keeps every other property. *)
Lemma setField_limit_other (v : value) (fs : list (string * value)) (k : string) :
  k <> "limit" -> lookupField k (setField "limit" v fs) = lookupField k fs.
Proof.
  intros Hne. unfold setField.
  destruct (lookupField "limit" fs) eqn:Hl.
  - now apply lookupField_replaceField_ne.
  - change (index_of_key "limit") with (@None nat). cbv beta iota.
    rewrite lookupField_snoc.
    destruct (lookupField k fs); [reflexivity|].
    destruct (String.eqb "limit" k) eqn:Hk; [|reflexivity].
    apply String.eqb_eq in Hk. congruence.
Qed.

Lemma setField_limit_same (v : value) (fs : list (string * value)) :
  lookupField "limit" (setField "limit" v fs) = Some v.
Proof.
  unfold setField. destruct (lookupField "limit" fs) eqn:Hl.
  - eapply lookupField_replaceField_eq; eauto.
  - change (index_of_key "limit") with (@None nat). cbv beta iota.
    rewrite lookupField_snoc, Hl.
    reflexivity.
Qed.

Lemma setOwn_limit (o : object) (v : value) :
  setOwn o "limit" v = Return (Object (okind o) (setField "limit" v (props o))).
Proof. destruct o as [[| elems | arity] ps]; reflexivity. Qed.

Lemma ownProp_limit_other (kd : kind) (ps : list (string * value)) (v : value) (k : string) :
  k <> "limit" ->
  ownProp (Object kd (setField "limit" v ps)) k = ownProp (Object kd ps) k.
Proof.
  intros Hne. unfold ownProp. simpl.
  rewrite (setField_limit_other v ps k Hne). reflexivity.
Qed.

Lemma ownProp_limit_same (kd : kind) (ps : list (string * value)) (v : value) :
  ownProp (Object kd (setField "limit" v ps)) "limit" = Some v.
Proof.
  unfold ownProp. simpl. rewrite setField_limit_same. destruct kd; reflexivity.
Qed.

Lemma grows_refl (w : world) : grows w w.
Proof. exists []. now rewrite app_nil_r. Qed.

Lemma grows_lookup (w w' : world) (l : nat) (o : object) :
  grows w w' -> store w !! l = Some o -> store w' !! l = Some o.
Proof. intros [fresh ->] H. now apply lookup_app_l_Some. Qed.

Lemma insert_alloc (h : list object) (o o' : object) :
  <[length h:=o']> (h ++ [o]) = h ++ [o'].
Proof. rewrite insert_app_r_alt by lia. now rewrite Nat.sub_diag. Qed.

Section Facts.

Variable E : collaborators.
Variable this : BaseModel.

(** *** Raw strings *)

(** C2: a string that is not primary-key-shaped (so every raw SQL
    fragment, and the empty string) never comes back behind WHERE: the
    second test of the first branch reads the undeclared variable
    [condition], and the call throws a ReferenceError. *)
Theorem raw_string_condition_throws (h : heap) (s : string) :
  pkShaped s = false ->
  compileConditions E this h (VStr s) = Throw (ReferenceError "condition").
Proof.
  intros Hs. unfold compileConditions. simpl. now rewrite Hs.
Qed.

(** *** Empty conditions *)

Lemma compileConditions_empty (h : heap) (args : list value) :
  emptyOrAbsent h args ->
  compileConditions E this h (arg 0 args) = Return EmptyString.
Proof.
  intros [-> | [-> | (l & -> & Hl)]]; try reflexivity.
  unfold compileConditions, objectItems, Underscore.isEmpty, Underscore.arrayLikeLength,
    Underscore.valueAt, Underscore.keys. simpl.
  now rewrite (deref_lookup _ _ _ Hl).
Qed.

Lemma no_trailing_callback_empty (h : heap) (args : list value) :
  emptyOrAbsent h args -> trailingCallback h args = None.
Proof.
  intros [-> | [-> | (l & -> & Hl)]]; try reflexivity.
  unfold trailingCallback. simpl. now rewrite (deref_lookup _ _ _ Hl).
Qed.

Lemma bindCallback_no_callback (oldMethod : method) (args : list value) (w : world) :
  trailingCallback (store w) args = None ->
  bindCallback oldMethod args w = oldMethod args w.
Proof.
  intros H. unfold bindCallback, bindM, getStore, ret. rewrite H.
  destruct (oldMethod args w) as [[p|e] w']; reflexivity.
Qed.

(** C5: an empty or omitted condition compiles to the empty string, and
    [remove] and [delete] then hand the driver the formatted
    [DELETE FROM ??] statement with nothing after it. *)
Theorem empty_condition_deletes_every_row (w : world) (args : list value) :
  emptyOrAbsent (store w) args ->
  let statement := format E (store w) "DELETE FROM ??" [VStr (table this)] in
  compileConditions E this (store w) (arg 0 args) = Return EmptyString
  /\ remove E this args w = query E statement w
  /\ delete E this args w = query E statement w
  /\ sent (snd (remove E this args w)) = sent w ++ [statement].
Proof.
  intros Hargs statement.
  pose proof (compileConditions_empty _ _ Hargs) as Hc.
  assert (Hr : remove E this args w = query E statement w).
  { unfold remove, bindM, getStore, lift. rewrite Hc. simpl.
    now rewrite append_empty_r. }
  repeat split.
  - exact Hc.
  - exact Hr.
  - unfold delete. rewrite bindCallback_no_callback; [exact Hr|].
    now apply no_trailing_callback_empty.
  - rewrite Hr. unfold query.
    destruct (driver E (sent w ++ [statement]) (length (store w))); reflexivity.
Qed.

(** *** Resolving the primary key *)

Lemma buildPkCondition_scalar_record (h : heap) (name : string) (data : value) :
  pk this = PkField name -> Underscore.isObject data = false ->
  buildPkCondition this h data = Return (h ++ [plain [(name, data)]], VRef (length h)).
Proof.
  intros Hpk Hd. unfold buildPkCondition. rewrite Hpk, Hd, setField_nil. reflexivity.
Qed.

Lemma buildPkCondition_mapping_with_pk (h : heap) (name : string) (l : loc) (x : value) :
  pk this = PkField name -> getProp h (VRef l) name = Return x -> x <> VUndefined ->
  buildPkCondition this h (VRef l) = Return (h ++ [plain [(name, x)]], VRef (length h)).
Proof.
  intros Hpk Hx Hne. unfold buildPkCondition. rewrite Hpk. simpl in *.
  injection Hx as Hx. rewrite Hx, setField_nil. destruct x; try reflexivity. congruence.
Qed.

(** C6: with a scalar primary key, a mapping that lacks the key field is
    refused with a plain [Error] whose message is the text; the error is
    not a [DbError] and carries no [invalid_param]. *)
Theorem missing_primary_key_is_plain_error (h : heap) (name : string) (l : loc) :
  pk this = PkField name ->
  getProp h (VRef l) name = Return VUndefined ->
  buildPkCondition this h (VRef l) = Throw (JsError "missing primary key").
Proof.
  intros Hpk Hx. unfold buildPkCondition. rewrite Hpk. simpl in *.
  injection Hx as Hx. now rewrite Hx.
Qed.

Lemma composite_other_shape (h : heap) (names : list string) (data : value) :
  pk this = PkFields names -> Underscore.isObject data = false ->
  buildPkCondition this h data =
    Throw (DbError "invalid_call" (VStr "invalid input for composite primary key")).
Proof.
  intros Hpk Hd. unfold buildPkCondition. rewrite Hpk, Hd. reflexivity.
Qed.

Lemma composite_fold_present (h : heap) (data : value) (pre : list string) :
  Forall (fun k => truthy (Underscore.valueAt h data k) = true) pre ->
  Underscore.isObject data = true ->
  forall c0, exists c1,
    fold_left (fun acc key =>
                 let* condition := acc in
                 let* x := getProp h data key in
                 if negb (truthy x) then Throw (missing key)
                 else Return (setField key x condition))
              pre (Return c0) = Return c1.
Proof.
  intros Hall Hobj. induction Hall as [|k pre Hk Hall IH]; intros c0; simpl.
  - now exists c0.
  - destruct data; try discriminate. unfold Underscore.valueAt in Hk. simpl in *.
    rewrite Hk. simpl. apply IH.
Qed.

(** With a composite key, a mapping that lacks a listed field (all the
    fields before it being present) is refused with [invalid_call], naming
    the field. *)
Lemma composite_missing_field (h : heap) (l : loc) (pre post : list string) (key : string) :
  pk this = PkFields (pre ++ key :: post) ->
  Forall (fun k => truthy (Underscore.valueAt h (VRef l) k) = true) pre ->
  truthy (Underscore.valueAt h (VRef l) key) = false ->
  buildPkCondition this h (VRef l) = Throw (missing key).
Proof.
  intros Hpk Hpre Hkey. unfold buildPkCondition. rewrite Hpk. simpl.
  rewrite fold_left_app.
  destruct (composite_fold_present h (VRef l) pre Hpre eq_refl []) as [c1 Hc1].
  simpl in Hc1. rewrite Hc1. simpl.
  unfold Underscore.valueAt in Hkey. simpl in Hkey. rewrite Hkey. simpl.
  rewrite fold_throw_missing; [reflexivity | reflexivity].
Qed.

(** C3: with a composite key, a positional record never reaches the
    branch that maps the fields by index: an array is an object, so the
    first branch looks the first field up by name, finds nothing, and
    refuses the record as missing that field, whatever its elements.  (The
    test of the second branch calls [_.isArray] with no argument.) *)
Theorem positional_record_is_rejected (h : heap) (l : loc) (elems : list value)
    (key : string) (rest : list string) :
  pk this = PkFields (key :: rest) ->
  h !! l = Some (array elems) ->
  index_of_key key = None ->
  String.eqb key "length" = false ->
  buildPkCondition this h (VRef l) = Throw (missing key).
Proof.
  intros Hpk Hl Hidx Hlen.
  apply (composite_missing_field h l [] rest key Hpk); [constructor|].
  unfold Underscore.valueAt. simpl. rewrite (deref_lookup _ _ _ Hl).
  unfold ownProp. simpl. now rewrite Hlen, Hidx.
Qed.

(** *** A bare primary key *)

Lemma compileItem_primitive (h h' : heap) (k v : value) (st : string * nat) :
  primitive k = true -> primitive v = true ->
  compileItem E h (k, v) st = compileItem E h' (k, v) st.
Proof.
  intros Hk Hv. destruct st as [str i].
  destruct k; try discriminate; destruct v; try discriminate; reflexivity.
Qed.

Lemma compileItems_primitive (h h' : heap) (items : list (completion (value * value))) :
  Forall primitiveItem items -> compileItems E h items = compileItems E h' items.
Proof.
  intros Hall. unfold compileItems. f_equal.
  generalize (Return (EmptyString, 0%nat) : completion (string * nat)).
  induction Hall as [|item items (k & v & -> & Hk & Hv) _ IH]; intros acc; cbn [fold_left].
  - reflexivity.
  - destruct acc as [st|e]; cbn [bind].
    + rewrite (compileItem_primitive h h' k v st Hk Hv). apply IH.
    + apply IH.
Qed.

Lemma objectItems_deref (h h' : heap) (l l' : loc) :
  deref h l = deref h' l' -> objectItems h (VRef l) = objectItems h' (VRef l').
Proof.
  intros Hd.
  unfold objectItems, Underscore.isEmpty, Underscore.entries, Underscore.eachKeys,
    Underscore.arrayLikeLength, Underscore.valueAt, Underscore.keys, isArray, getProp.
  simpl. now rewrite Hd.
Qed.

Lemma eachKeys_primitive (h : heap) (v : value) :
  Forall (fun k => primitive (snd k) = true) (Underscore.eachKeys h v).
Proof.
  unfold Underscore.eachKeys.
  destruct (Underscore.arrayLikeLength h v); apply Forall_forall; intros k Hin;
    apply list_elem_of_In, in_map_iff in Hin; destruct Hin as (x & <- & _); reflexivity.
Qed.

Lemma objectItems_primitive (h : heap) (l : loc) (f : string) (v : value)
    (items : list (completion (value * value))) :
  deref h l = plain [(f, v)] -> primitive v = true ->
  objectItems h (VRef l) = Some items -> Forall primitiveItem items.
Proof.
  intros Hd Hv. unfold objectItems.
  destruct (Underscore.isEmpty h (VRef l)); [discriminate|].
  intros [= <-]. unfold Underscore.entries. rewrite !Forall_map.
  eapply Forall_impl; [apply eachKeys_primitive|].
  intros [k kv] Hk. simpl in *. exists kv, (Underscore.valueAt h (VRef l) k).
  repeat split; [exact Hk|].
  unfold Underscore.valueAt. simpl. rewrite Hd. unfold ownProp, lookupField. simpl.
  destruct (String.eqb f k); simpl; [exact Hv | reflexivity].
Qed.

(** C7, as the code has it: a bare scalar condition, that is a number or
    a string of one or more characters with no white space, [=], [<], [>]
    or double quote among them, compiles to the same WHERE string as the
    mapping with the one field [pk := v]. *)
Theorem scalar_condition_is_pk_equality (h : heap) (l : loc) (f : string) (v : value) :
  pk this = PkField f ->
  scalarCondition v = true ->
  h !! l = Some (plain [(f, v)]) ->
  compileConditions E this h v = compileConditions E this h (VRef l).
Proof.
  intros Hpk Hv Hl.
  assert (Hprim : primitive v = true) by (destruct v; try discriminate; reflexivity).
  assert (Hfirst : (isNumber v || (isString v && pkShaped (toStr E h v))) = true)
    by (destruct v; try discriminate; [reflexivity | exact Hv]).
  pose proof (deref_lookup _ _ _ Hl) as Hd.
  unfold compileConditions at 1. rewrite Hfirst. unfold pkKey. rewrite Hpk, setField_nil.
  unfold alloc, bind.
  change (Underscore.isObject (VRef (length h))) with true.
  assert (Hnew : deref (h ++ [plain [(f, v)]]) (length h) = deref h l)
    by (now rewrite deref_alloc, Hd).
  unfold compileConditions. simpl.
  rewrite Hnew, Hd. simpl.
  rewrite (objectItems_deref _ _ _ _ Hnew).
  destruct (objectItems h (VRef l)) as [items|] eqn:Hitems; [|reflexivity].
  apply compileItems_primitive. eapply objectItems_primitive; eauto.
Qed.

(** *** Operator tuples *)

Lemma listItems_array (h : list object) (l : nat) (elems : list value) :
  h !! l = Some (array elems) ->
  listItems h (VRef l) = map (readItem h) elems.
Proof.
  intros Hl. unfold listItems.
  rewrite <- (map_map fst (readItem h)). now rewrite (array_entries _ _ _ Hl).
Qed.

Lemma compileItem_succeeds_anywhere (h : list object) (kv : value * value)
    (st st' : string * nat) (r : string * nat) :
  compileItem E h kv st = Return r -> exists r', compileItem E h kv st' = Return r'.
Proof.
  destruct kv as [k v], st as [str i], st' as [str' i']. unfold compileItem.
  match goal with |- context [bind ?X _] => destruct X as [[[op cj] v']|e] end;
    simpl; intros H; [eauto | discriminate H].
Qed.

Lemma loop_over_compiling_items (h : list object) (pre : list value) (st : string * nat) :
  forallb (itemCompiles E h) pre = true ->
  exists st',
    fold_left (fun acc item => let* st := acc in let* kv := item in compileItem E h kv st)
              (map (readItem h) pre) (Return st) = Return st'.
Proof.
  revert st. induction pre as [|item pre IH]; intros st Hall; cbn [map fold_left].
  - now exists st.
  - apply andb_prop in Hall as [Hitem Hall]. unfold itemCompiles in Hitem.
    cbn [bind]. destruct (readItem h item) as [kv|e]; cbn [bind] in *; [|discriminate].
    destruct (compileItem E h kv (EmptyString, 0%nat)) as [r|e] eqn:Hr; [|discriminate].
    destruct (compileItem_succeeds_anywhere _ _ _ st _ Hr) as [r' Hr'].
    rewrite Hr'. now apply IH.
Qed.

(** *** Errors of the compiler are synchronous *)

Lemma proto_search_compile_error (args : list value) (w : world) (e : error) :
  compileConditions E this (store w) (arg 0 args) = Throw e ->
  proto_search E this args w = (Throw e, w).
Proof.
  intros He. unfold proto_search, bindM, getStore, lift. now rewrite He.
Qed.

Lemma remove_compile_error (args : list value) (w : world) (e : error) :
  compileConditions E this (store w) (arg 0 args) = Throw e ->
  remove E this args w = (Throw e, w).
Proof.
  intros He. unfold remove, bindM, getStore, lift. now rewrite He.
Qed.

Lemma trailingCallback_is_function (h : list object) (args : list value) (f : nat) :
  trailingCallback h args = Some f ->
  list.last args = Some (VRef f) /\ isFunction h (VRef f) = true.
Proof.
  unfold trailingCallback, Underscore.last.
  destruct (list.last args) as [[| | | | |g]|]; cbn [default from_option id];
    try (intros H; discriminate H).
  destruct (isFunction h (VRef g)) eqn:Hg; intros H; [|discriminate H].
  injection H as <-. now split.
Qed.

(** A wrapped method whose first argument is not a function hands it on
    as the first argument, with or without a trailing handler. *)
Lemma bindCallback_throws (oldMethod : method) (c : value) (rest : list value)
    (w : world) (e : error) :
  isFunction (store w) c = false ->
  (forall args, arg 0 args = c -> oldMethod args w = (Throw e, w)) ->
  bindCallback oldMethod (c :: rest) w = (Throw e, w).
Proof.
  intros Hc Hold. unfold bindCallback, bindM, getStore.
  destruct (trailingCallback (store w) (c :: rest)) as [f|] eqn:Hcb.
  - apply trailingCallback_is_function in Hcb as [Hlast Hf].
    destruct rest as [|r rest].
    + simpl in Hlast. injection Hlast as ->. congruence.
    + rewrite Hold; [reflexivity|]. reflexivity.
  - rewrite Hold; reflexivity.
Qed.

(** *** The callback layer *)

Lemma trailingCallback_snoc (h : list object) (args : list value) (f : nat) :
  isFunction h (VRef f) = true -> trailingCallback h (args ++ [VRef f]) = Some f.
Proof.
  intros Hf. unfold trailingCallback, Underscore.last. rewrite last_snoc.
  cbn [default from_option id]. now rewrite Hf.
Qed.

Lemma bindCallback_with_callback (oldMethod : method) (args : list value) (f : nat)
    (w : world) :
  isFunction (store w) (VRef f) = true ->
  bindCallback oldMethod (args ++ [VRef f]) w = notified f (oldMethod args w).
Proof.
  intros Hf. unfold bindCallback, bindM, getStore.
  rewrite (trailingCallback_snoc _ _ _ Hf), removelast_last.
  destruct (oldMethod args w) as [[[data|e|]|e] w']; reflexivity.
Qed.

(** C4, as the code has it: a wrapped method called with a function as
    its last argument runs the function it wraps on the other arguments
    and returns what that returns; the handler is called once with
    [(null, data)] when the result is fulfilled, once with the error alone
    when it is rejected, and not at all when the wrapped function throws
    or its result stays pending. *)
Theorem callback_layer_notifies_once (m oldMethod : method) (args : list value)
    (f : nat) (w : world) :
  In (m, oldMethod) (wrappedMethods E this) ->
  isFunction (store w) (VRef f) = true ->
  m (args ++ [VRef f]) w = notified f (oldMethod args w).
Proof.
  intros Hin Hf.
  assert (Hm : m = bindCallback oldMethod).
  { simpl in Hin.
    repeat (destruct Hin as [Hin | Hin]; [injection Hin as <- <-; reflexivity|]).
    destruct Hin. }
  rewrite Hm. now apply bindCallback_with_callback.
Qed.

(** *** The store only grows under [search] *)

Lemma query_grows (sql : string) (w : world) : grows w (snd (query E sql w)).
Proof.
  unfold query. destruct (driver E _ _) as [fresh err rows | e |]; simpl.
  - now exists fresh.
  - exists []. simpl. now rewrite app_nil_r.
  - exists []. simpl. now rewrite app_nil_r.
Qed.

Lemma proto_search_grows (args : list value) (w : world) :
  grows w (snd (proto_search E this args w)).
Proof.
  unfold proto_search, bindM, getStore, lift.
  destruct (compileConditions E this (store w) (arg 0 args)); simpl.
  - apply query_grows.
  - apply grows_refl.
Qed.

Lemma bindCallback_grows (oldMethod : method) (args : list value) (w : world) :
  (forall args' w', grows w' (snd (oldMethod args' w'))) ->
  grows w (snd (bindCallback oldMethod args w)).
Proof.
  intros Hold. unfold bindCallback, bindM, getStore.
  set (cb := trailingCallback (store w) args).
  set (args' := match cb with Some _ => removelast args | None => args end).
  specialize (Hold args' w).
  destruct (oldMethod args' w) as [[p|e] w']; simpl in *; [|exact Hold].
  destruct cb as [f|]; [|exact Hold].
  destruct p; simpl; exact Hold.
Qed.

Lemma search_grows (args : list value) (w : world) : grows w (snd (search E this args w)).
Proof. apply bindCallback_grows. intros. apply proto_search_grows. Qed.

Lemma firstRow_store (rows : value) (w : world) :
  snd (firstRow E rows w) = w.
Proof.
  unfold firstRow, bindM, getStore, lift, ret.
  destruct (getProp (store w) rows "length") as [len|e]; [|reflexivity].
  destruct (looseEqZero E (store w) len); [reflexivity|].
  destruct (getProp (store w) rows "0"); reflexivity.
Qed.

Lemma andThen_firstRow_store (p : promise) (w : world) :
  snd (andThen p (firstRow E) w) = w.
Proof.
  unfold andThen. destruct p; try reflexivity.
  pose proof (firstRow_store v w) as H.
  destruct (firstRow E v w) as [c w']. exact H.
Qed.

(** *** [find] and the caller's options *)

(** C10: [find] called with an options object writes [limit := 1] into
    that very object before it calls [search]; the object keeps the write
    after the call, whatever [limit] it held before, and every other
    property of it is as it was. *)
Theorem find_overwrites_limit (conditions : value) (l : nat) (o : object) (w : world) :
  store w !! l = Some o ->
  isFunction (store w) (VRef l) = false ->
  let o' := Object (okind o) (setField "limit" (VNum 1) (props o)) in
  let w1 := withStore w (<[l:=o']> (store w)) in
  let result := find E this [conditions; VRef l] w in
  result = bindM (search E this [conditions; VRef l])
                 (fun promise => andThen promise (firstRow E)) w1
  /\ store (snd result) !! l = Some o'
  /\ ownProp o' "limit" = Some (VNum 1)
  /\ forall k, k <> "limit" -> ownProp o' k = ownProp o k.
Proof.
  intros Hl Hnf o' w1 result.
  assert (Hres : result = bindM (search E this [conditions; VRef l])
                                (fun promise => andThen promise (firstRow E)) w1).
  { subst result. unfold find. rewrite bindCallback_no_callback.
    - unfold proto_find. cbn [arg nth truthy]. unfold bindM at 1 2 3 4. cbn [getStore putStore fst snd].
      unfold lift, setProp. cbn [store withStore]. rewrite (deref_lookup _ _ _ Hl), setOwn_limit.
      cbn [bind]. reflexivity.
    - unfold trailingCallback, Underscore.last. cbn. cbn in Hnf. now rewrite Hnf. }
  split; [exact Hres|]. split; [|split].
  - rewrite Hres. unfold bindM.
    pose proof (search_grows [conditions; VRef l] w1) as Hg.
    destruct (search E this [conditions; VRef l] w1) as [[p|e] w2]; simpl in Hg.
    + rewrite andThen_firstRow_store. eapply grows_lookup; [exact Hg|].
      subst w1. simpl. apply list_lookup_insert_eq. now apply lookup_lt_Some in Hl.
    + simpl. eapply grows_lookup; [exact Hg|].
      subst w1. simpl. apply list_lookup_insert_eq. now apply lookup_lt_Some in Hl.
  - apply ownProp_limit_same.
  - intros k Hk. destruct o as [kd ps]. now apply ownProp_limit_other.
Qed.

(** *** [search], [find] and [replace] against the driver *)

Lemma trailingCallback_not_function (h : list object) (c opts : value) :
  isFunction h opts = false -> trailingCallback h [c; opts] = None.
Proof.
  intros H. unfold trailingCallback, Underscore.last. cbn [list.last default from_option id].
  destruct opts; try reflexivity. now rewrite H.
Qed.

Lemma trailingCallback_single (h : list object) (c : value) :
  isFunction h c = false -> trailingCallback h [c] = None.
Proof.
  intros H. unfold trailingCallback, Underscore.last. cbn [list.last default from_option id].
  destruct c; try reflexivity. now rewrite H.
Qed.

Lemma search_sends (c opts : value) (w : world) (wh : string)
    (fresh : list object) (err rows : value) :
  isFunction (store w) opts = false ->
  compileConditions E this (store w) c = Return wh ->
  let sql := format E (store w) "SELECT * FROM ??" [VStr (table this)]
             +:+ wh +:+ compileOptions E (store w) opts in
  driver E (sent w ++ [sql]) (length (store w)) = Reply fresh err rows ->
  search E this [c; opts] w =
    (Return (if truthy err then Rejected (Reason err) else Fulfilled rows),
     World (store w ++ fresh) (sent w ++ [sql]) (calls w)).
Proof.
  intros Hopts Hc sql Hd. unfold search.
  rewrite bindCallback_no_callback by now apply trailingCallback_not_function.
  unfold proto_search, bindM, getStore, lift. cbn [arg nth]. rewrite Hc.
  unfold query. fold sql. now rewrite Hd.
Qed.

Lemma firstRow_of_array (r : nat) (rows : list value) (w : world) :
  store w !! r = Some (array rows) ->
  firstRow E (VRef r) w =
    (Return (Fulfilled (match rows with [] => VNull | row :: _ => row end)), w).
Proof.
  intros Hr. unfold firstRow, bindM, getStore, lift, ret, getProp.
  rewrite (deref_lookup _ _ _ Hr). destruct rows as [|row rows]; reflexivity.
Qed.

Lemma compileOptions_limit_one (h : list object) :
  compileOptions E (h ++ [plain [("limit", VNum 1)]]) (VRef (length h)) = " LIMIT 1"%string.
Proof.
  unfold compileOptions, Underscore.valueAt, getProp. rewrite deref_alloc. reflexivity.
Qed.

(** [find] called with a condition alone: one SELECT limited to one row,
    and the first row of the reply, or [null]. *)
Lemma find_first_row (c : nat) (w : world) (wh : string)
    (fresh : list object) (err : value) (r : nat) (rows : list value) :
  isFunction (store w) (VRef c) = false ->
  let h2 := store w ++ [plain [("limit", VNum 1)]] in
  compileConditions E this h2 (VRef c) = Return wh ->
  let sql := format E h2 "SELECT * FROM ??" [VStr (table this)] +:+ wh +:+ " LIMIT 1" in
  driver E (sent w ++ [sql]) (length h2) = Reply fresh err (VRef r) ->
  truthy err = false ->
  (h2 ++ fresh) !! r = Some (array rows) ->
  find E this [VRef c] w =
    (Return (Fulfilled (match rows with [] => VNull | row :: _ => row end)),
     World (h2 ++ fresh) (sent w ++ [sql]) (calls w)).
Proof.
  intros Hc h2 Hwh sql Hd Herr Hr. subst sql h2. unfold find.
  rewrite bindCallback_no_callback by now apply trailingCallback_single.
  unfold proto_find. cbn [arg nth truthy alloc].
  unfold bindM at 1 2 3 4. cbn [getStore putStore fst snd store withStore].
  unfold lift, setProp. rewrite deref_alloc, setOwn_limit. cbn [bind okind props plain].
  rewrite insert_alloc.
  change (Object KPlain (setField "limit" (VNum 1) [])) with (plain [("limit", VNum 1)]).
  unfold bindM.
  match goal with |- context [search E this _ ?w'] =>
    change w' with (withStore w (store w ++ [plain [("limit", VNum 1)]])) end.
  rewrite (search_sends (VRef c) (VRef (length (store w)))
             (withStore w (store w ++ [plain [("limit", VNum 1)]])) wh fresh err (VRef r)).
  - rewrite Herr. unfold andThen. cbn [store withStore sent calls].
    rewrite (compileOptions_limit_one (store w)).
    rewrite (firstRow_of_array r rows) by exact Hr. reflexivity.
  - simpl. now rewrite deref_alloc.
  - exact Hwh.
  - cbn [store withStore sent].
    rewrite (compileOptions_limit_one (store w)). exact Hd.
Qed.

Lemma buildPkCondition_allocates (h : list object) (data : value)
    (h1 : list object) (condition : value) :
  buildPkCondition this h data = Return (h1, condition) ->
  exists fs, h1 = h ++ [plain fs] /\ condition = VRef (length h).
Proof.
  unfold buildPkCondition, alloc.
  match goal with |- context [bind ?X _] => destruct X as [fs|e] end; simpl;
    intros H; [|discriminate H].
  injection H as <- <-. now exists fs.
Qed.

(** C9: [replace] resolves the condition from the data, sends one SELECT
    for it limited to one row, and hands the same arguments on: to
    [update] with the condition and the data when the reply holds a row, to
    [insert] with the data when it holds none. *)
Theorem replace_routes_by_existence (args : list value) (w : world)
    (h1 : list object) (condition : value) (wh : string)
    (fresh : list object) (err : value) (r : nat) (rows : list value) :
  let data := arg 0 args in
  let constraints := arg 1 args in
  trailingCallback (store w) args = None ->
  buildPkCondition this (store w) data = Return (h1, condition) ->
  let h2 := h1 ++ [plain [("limit", VNum 1)]] in
  compileConditions E this h2 condition = Return wh ->
  let sql := format E h2 "SELECT * FROM ??" [VStr (table this)] +:+ wh +:+ " LIMIT 1" in
  driver E (sent w ++ [sql]) (length h2) = Reply fresh err (VRef r) ->
  truthy err = false ->
  (h2 ++ fresh) !! r = Some (array rows) ->
  let w2 := World (h2 ++ fresh) (sent w ++ [sql]) (calls w) in
  replace E this args w =
    match rows with
    | [] => delegated (insert E this [data; constraints] w2)
    | row :: _ =>
        if truthy row then delegated (update E this [condition; data; constraints] w2)
        else delegated (insert E this [data; constraints] w2)
    end.
Proof.
  intros data constraints Hcb Hpk h2 Hwh sql Hd Herr Hr w2.
  destruct (buildPkCondition_allocates _ _ _ _ Hpk) as (fs & Hh1 & Hcond).
  unfold replace. rewrite bindCallback_no_callback by exact Hcb.
  unfold proto_replace. fold data constraints.
  unfold bindM at 1 2 3 4. cbn [getStore fst snd]. unfold lift. rewrite Hpk.
  cbn [putStore]. subst condition. cbn [isUndefined ret].
  unfold bindM.
  rewrite (find_first_row (length (store w)) (withStore w h1) wh fresh err r rows).
  - match goal with |- context [andThen _ _ ?w'] => change w' with w2 end.
    unfold andThen, delegated.
    destruct rows as [|row rows']; cbn [truthy].
    + destruct (insert E this [data; constraints] w2); reflexivity.
    + destruct (truthy row).
      * destruct (update E this [VRef (length (store w)); data; constraints] w2); reflexivity.
      * destruct (insert E this [data; constraints] w2); reflexivity.
  - cbn [store withStore isFunction]. subst h1. now rewrite deref_alloc.
  - exact Hwh.
  - exact Hd.
  - exact Herr.
  - exact Hr.
Qed.

End Facts.

(** C1: [validate] with a supplied mapping copies the handle's mapping
    one level deep only, and then extends in place the rule object that
    the handle itself holds for each supplied field: after the call the
    handle's rule for [username] has gained the supplied [email] rule. *)
Theorem validate_extends_configured_rule (E : collaborators) (data : value) :
  let h := Sample.h0 ++ [plain [("username", VRef 3)]; plain [("email", VBool true)]] in
  let w' := snd (validate E Sample.user data (VRef 2) (World h [] [])) in
  h !! 1 = Some (plain [("presence", VBool true)])
  /\ store w' !! 1 = Some (plain [("presence", VBool true); ("email", VBool true)])
  /\ store w' !! 0 = h !! 0.
Proof.
  intros h w'. subst h w'. unfold validate, bindM. simpl.
  destruct (validateJs E _ data (VRef 4)) as [fresh errors].
  repeat split.
Qed.

(** ** The properties at work on the [user] table *)

Import Sample.

Lemma raw_string_condition_throws_witness :
  pkShaped "a = 1" = false
  /\ compileConditions E0 user h0 (VStr "a = 1") = Throw (ReferenceError "condition").
Proof.
  split; [reflexivity | apply raw_string_condition_throws; reflexivity].
Defined.

Lemma empty_condition_deletes_every_row_witness :
  let w := World (h0 ++ [plain []]) [] [] in
  emptyOrAbsent (store w) [VRef 2]
  /\ compileConditions E0 user (store w) (VRef 2) = Return EmptyString
  /\ delete E0 user [VRef 2] w = query E0 "DELETE FROM `user`" w
  /\ sent (snd (remove E0 user [] w)) = ["DELETE FROM `user`"].
Proof.
  set (w := World (h0 ++ [plain []]) [] []).
  assert (H2 : emptyOrAbsent (store w) [VRef 2])
    by (right; right; exists 2; split; reflexivity).
  assert (H0 : emptyOrAbsent (store w) []) by (left; reflexivity).
  destruct (empty_condition_deletes_every_row E0 user w [VRef 2] H2) as (Hc & _ & Hd & _).
  destruct (empty_condition_deletes_every_row E0 user w [] H0) as (_ & _ & _ & Hs).
  split; [exact H2 | split; [exact Hc | split; [exact Hd | exact Hs]]].
Defined.

Lemma missing_primary_key_is_plain_error_witness :
  let h := h0 ++ [plain [("username", VStr "king")]] in
  pk user = PkField "id"
  /\ getProp h (VRef 2) "id" = Return VUndefined
  /\ buildPkCondition user h (VRef 2) = Throw (JsError "missing primary key").
Proof.
  split; [reflexivity | split; [reflexivity|]].
  apply (missing_primary_key_is_plain_error user _ "id" 2); reflexivity.
Defined.

Lemma positional_record_is_rejected_witness :
  let h := h0 ++ [array [VStr "a"; VNum 7]] in
  pk membership = PkFields ["tenant"; "id"]
  /\ h !! 2 = Some (array [VStr "a"; VNum 7])
  /\ index_of_key "tenant" = None
  /\ String.eqb "tenant" "length" = false
  /\ buildPkCondition membership h (VRef 2) = Throw (missing "tenant").
Proof.
  do 4 (split; [reflexivity|]).
  apply (positional_record_is_rejected membership _ 2 [VStr "a"; VNum 7] "tenant" ["id"]);
    reflexivity.
Defined.

Lemma scalar_condition_is_pk_equality_witness :
  let h := h0 ++ [plain [("id", VNum 12)]] in
  pk user = PkField "id"
  /\ scalarCondition (VNum 12) = true
  /\ h !! 2 = Some (plain [("id", VNum 12)])
  /\ compileConditions E0 user h (VNum 12) = compileConditions E0 user h (VRef 2)
  /\ compileConditions E0 user h (VNum 12) = Return " WHERE (`id` = 12)"%string.
Proof.
  do 3 (split; [reflexivity|]). split; [|reflexivity].
  apply (scalar_condition_is_pk_equality E0 user _ 2 "id" (VNum 12)); reflexivity.
Defined.

(** C7, as stated, fails on the empty string: it holds no white space
    and none of the listed characters, yet the test for a bare key asks
    for one character at least, so the empty string is not taken for a
    key, while the mapping with an empty key compiles to an equality. *)
Lemma scalar_condition_counterexample :
  let h := h0 ++ [plain [("id", VStr EmptyString)]] in
  compileConditions E0 user h (VStr EmptyString) = Throw (ReferenceError "condition")
  /\ compileConditions E0 user h (VRef 2) = Return " WHERE (`id` = '')"%string
  /\ compileConditions E0 user h (VStr EmptyString) <> compileConditions E0 user h (VRef 2).
Proof. split; [reflexivity | split; [reflexivity | discriminate]]. Qed.

Lemma callback_layer_notifies_once_witness :
  let w := World handlerStore [] [] in
  In (find E0 user, proto_find E0 user) (wrappedMethods E0 user)
  /\ isFunction (store w) (VRef 2) = true
  /\ find E0 user ([VNum 7] ++ [VRef 2]) w = notified 2 (proto_find E0 user [VNum 7] w)
  /\ calls (snd (find E0 user [VNum 7; VRef 2] w))
     = [CbCall 2 [ArgValue VNull; ArgValue (VRef 4)]].
Proof.
  set (w := World handlerStore [] []).
  assert (Hin : In (find E0 user, proto_find E0 user) (wrappedMethods E0 user))
    by (right; left; reflexivity).
  pose proof (callback_layer_notifies_once E0 user _ _ [VNum 7] 2 w Hin eq_refl) as H.
  split; [exact Hin | split; [reflexivity | split; [exact H | reflexivity]]].
Defined.

(** C4, as stated, fails twice: on a rejection the handler receives the
    error alone, with no [null] after it; and when the wrapped method
    throws (here the compiler refuses a short tuple) the handler is never
    called and no deferred result is returned. *)
Lemma callback_layer_counterexample :
  let lost := Reason (VStr "PROTOCOL_CONNECTION_LOST") in
  let w := World handlerStore [] [] in
  let r := find (withDriver failingDriver) user [VNum 7; VRef 2] w in
  let w' := World (shortTupleStore ++ [func 2]) [] [] in
  let r' := search E0 user [VRef 2; VRef 6] w' in
  fst r = Return (Rejected lost)
  /\ calls (snd r) = [CbCall 2 [ArgError lost]]
  /\ [ArgError lost] <> [ArgError lost; ArgValue VNull]
  /\ isFunction (store w') (VRef 6) = true
  /\ fst r' = Throw (DbError "invalid_param" (VStr "not enough params for condition"))
  /\ calls (snd r') = [].
Proof.
  split; [reflexivity | split; [reflexivity | split; [discriminate|]]].
  repeat split.
Qed.

Lemma find_overwrites_limit_witness :
  let w := World optionsStore [] [] in
  let options' := plain [("orderBy", VStr "id ASC"); ("limit", VNum 1); ("start", VNum 50)] in
  store w !! 2
    = Some (plain [("orderBy", VStr "id ASC"); ("limit", VNum 10); ("start", VNum 50)])
  /\ isFunction (store w) (VRef 2) = false
  /\ store (snd (find E0 user [VNum 7; VRef 2] w)) !! 2 = Some options'
  /\ sent (snd (find E0 user [VNum 7; VRef 2] w))
     = ["SELECT * FROM `user` WHERE (`id` = 7) ORDER BY id ASC LIMIT 50, 1"%string].
Proof.
  set (w := World optionsStore [] []).
  destruct (find_overwrites_limit E0 user (VNum 7) 2 _ w eq_refl eq_refl) as (_ & Hs & _).
  split; [reflexivity | split; [reflexivity | split; [exact Hs | reflexivity]]].
Defined.

Lemma replace_routes_by_existence_witness :
  let w := World recordStore [] [] in
  let limit1 := plain [("limit", VNum 1)] in
  let select7 := "SELECT * FROM `user` WHERE (`id` = 7) LIMIT 1"%string in
  let select99 := "SELECT * FROM `user` WHERE (`id` = 99) LIMIT 1"%string in
  let w7 := World (recordStore ++ [plain [("id", VNum 7)]; limit1;
                                   plain [("id", VNum 7)]; array [VRef 6]])
                  [select7] [] in
  let w99 := World (recordStore ++ [plain [("id", VNum 99)]; limit1; array []])
                   [select99] [] in
  replace E0 user [VRef 2] w = delegated (update E0 user [VRef 4; VRef 2; VUndefined] w7)
  /\ sent (snd (replace E0 user [VRef 2] w))
     = [select7; "UPDATE `user` SET [object Object] WHERE (`id` = 7)"%string]
  /\ replace E0 user [VRef 3] w = delegated (insert E0 user [VRef 3; VUndefined] w99)
  /\ sent (snd (replace E0 user [VRef 3] w))
     = [select99; "INSERT INTO `user` SET [object Object]"%string].
Proof.
  set (w := World recordStore [] []).
  pose proof (replace_routes_by_existence E0 user [VRef 2] w
                (recordStore ++ [plain [("id", VNum 7)]]) (VRef 4)
                " WHERE (`id` = 7)" [plain [("id", VNum 7)]; array [VRef 6]] VNull 7
                [VRef 6] eq_refl eq_refl eq_refl eq_refl eq_refl eq_refl) as H7.
  pose proof (replace_routes_by_existence E0 user [VRef 3] w
                (recordStore ++ [plain [("id", VNum 99)]]) (VRef 4)
                " WHERE (`id` = 99)" [array []] VNull 6
                [] eq_refl eq_refl eq_refl eq_refl eq_refl eq_refl) as H99.
  split; [exact H7 | split; [reflexivity | split; [exact H99 | reflexivity]]].
Defined.

(** *** The examples of the README *)

Example readme_mapping_condition :
  compileConditions E0 user readmeStore (VRef 2)
  = Return " WHERE (`username` = 'user1') AND (`password` = '123456')"%string.
Proof. reflexivity. Qed.

Example readme_list_condition :
  compileConditions E0 user readmeStore (VRef 3)
  = Return " WHERE (`username` LIKE 'super%') OR (`username` LIKE '%spider%')"%string.
Proof. reflexivity. Qed.

Example readme_primary_key :
  compileConditions E0 user readmeStore (VNum 12) = Return " WHERE (`id` = 12)"%string.
Proof. reflexivity. Qed.

Example readme_options :
  compileOptions E0 readmeStore (VRef 8) = " ORDER BY `add_time` DESC LIMIT 50, 10"%string.
Proof. reflexivity. Qed.

(** ** Further properties *)

Lemma append_assoc (a b c : string) : (a +:+ b) +:+ c = a +:+ (b +:+ c).
Proof.
  induction a as [|x a IH]; [reflexivity|].
  change (String x ((a +:+ b) +:+ c) = String x (a +:+ (b +:+ c))). now rewrite IH.
Qed.

Lemma lookup_alloc (h : list object) (o : object) : (h ++ [o]) !! length h = Some o.
Proof. now apply list_lookup_middle. Qed.

Lemma lookupField_cons (k k' : string) (v : value) (fs : list (string * value)) :
  lookupField k' ((k, v) :: fs) = if String.eqb k k' then Some v else lookupField k' fs.
Proof. unfold lookupField. simpl. destruct (String.eqb k k'); reflexivity. Qed.

Lemma lookupField_In (k : string) (v : value) (fs : list (string * value)) :
  NoDup (map fst fs) -> In (k, v) fs -> lookupField k fs = Some v.
Proof.
  induction fs as [|[a x] fs IH]; intros Hnd Hin; [destruct Hin|].
  rewrite lookupField_cons. apply NoDup_cons in Hnd as [Ha Hnd]. destruct Hin as [[= -> ->]|Hin].
  - now rewrite String.eqb_refl.
  - destruct (String.eqb a k) eqn:Hak; [|now apply IH].
    apply String.eqb_eq in Hak as ->. exfalso. apply Ha.
    apply list_elem_of_In. apply in_map_iff. now exists (k, v).
Qed.

Lemma concat_cons (c : string) (cs : list string) :
  String.concat " AND " (c :: cs) = c +:+ tailOf cs.
Proof.
  revert c. induction cs as [|c2 cs IH]; intros c.
  - simpl. now rewrite append_empty_r.
  - change (String.concat " AND " (c :: c2 :: cs))
      with (c +:+ " AND " +:+ String.concat " AND " (c2 :: cs)).
    now rewrite IH.
Qed.

Lemma fold_glue (cs : list string) (str : string) (i : nat) :
  fst (fold_left glue cs (str, S i)) = str +:+ tailOf cs.
Proof.
  revert str i. induction cs as [|c cs IH]; intros str i.
  - simpl. now rewrite append_empty_r.
  - cbn [fold_left]. unfold glue at 2. cbn [fst snd Nat.ltb Nat.leb].
    rewrite IH. cbn [tailOf]. now rewrite !append_assoc.
Qed.

Section Conditions.

Variable E : collaborators.
Variable this : BaseModel.

(** *** Mappings as conditions *)

Lemma compileItem_equality (h : list object) (k : string) (v : value) (st : string * nat) :
  primitive v = true ->
  compileItem E h (VStr k, v) st = Return (glue st (equalityClause E h (k, v))).
Proof.
  intros Hv. destruct st as [str i]. unfold glue, equalityClause. cbn [fst snd].
  destruct v; try discriminate; unfold compileItem; cbn [bind];
    destruct (0 <? i)%nat; cbn [String.eqb Ascii.eqb Bool.eqb andb]; rewrite ?append_assoc;
    reflexivity.
Qed.

Lemma loop_over_equalities (h : list object) (fs : list (string * value)) (st : string * nat) :
  Forall (fun kv => primitive (snd kv) = true) fs ->
  fold_left (fun acc item => let* st := acc in let* kv := item in compileItem E h kv st)
            (map (fun kv => Return (VStr (fst kv), snd kv)) fs) (Return st)
  = Return (fold_left glue (map (equalityClause E h) fs) st).
Proof.
  intros Hall. revert st. induction Hall as [|[k v] fs Hv _ IH]; intros st; cbn [map fold_left].
  - reflexivity.
  - cbn [bind fst snd]. rewrite (compileItem_equality h k v st Hv). apply IH.
Qed.

Lemma mapping_entries (h : list object) (l : nat) (fs : list (string * value)) :
  h !! l = Some (plain fs) -> NoDup (map fst fs) -> lookupField "length" fs = None ->
  Underscore.entries h (VRef l) = map (fun kv => (snd kv, VStr (fst kv))) fs.
Proof.
  intros Hl Hnd Hlen.
  unfold Underscore.entries, Underscore.eachKeys, Underscore.arrayLikeLength,
    Underscore.valueAt, Underscore.keys, getProp.
  rewrite (deref_lookup _ _ _ Hl). unfold ownProp. cbn [okind props plain].
  rewrite Hlen. cbn [default from_option id]. rewrite !map_map. apply map_ext_in.
  intros [k v] Hin. cbn [fst snd]. now rewrite (lookupField_In k v fs Hnd Hin).
Qed.

Lemma compile_mapping (h : list object) (l : nat) (fs : list (string * value)) :
  h !! l = Some (plain fs) ->
  NoDup (map fst fs) ->
  lookupField "length" fs = None ->
  Forall (fun kv => primitive (snd kv) = true) fs ->
  compileConditions E this h (VRef l) = Return (whereOf (map (equalityClause E h) fs)).
Proof.
  intros Hl Hnd Hlen Hprim. unfold compileConditions.
  cbn [isNumber isString orb andb bind Underscore.isObject isArray].
  rewrite (deref_lookup _ _ _ Hl). cbn [okind plain negb].
  unfold objectItems. rewrite (mapping_entries _ _ _ Hl Hnd Hlen).
  unfold Underscore.isEmpty, Underscore.arrayLikeLength, Underscore.valueAt, Underscore.keys,
    getProp. rewrite (deref_lookup _ _ _ Hl). unfold ownProp. cbn [okind props plain].
  rewrite Hlen. cbn [default from_option id].
  destruct fs as [|[k v] fs]; [reflexivity|]. cbn [map].
  rewrite map_map. cbn [fst snd]. unfold compileItems.
  change (Return (VStr k, v) :: map (fun x => Return (VStr (fst x), snd x)) fs)
    with (map (fun kv : string * value => Return (VStr (fst kv), snd kv)) ((k, v) :: fs)).
  rewrite (loop_over_equalities h ((k, v) :: fs) _ Hprim). cbn [bind map fold_left].
  unfold glue at 2. cbn [fst snd Nat.ltb Nat.leb].
  pose proof (fold_glue (map (equalityClause E h) fs)
                (EmptyString +:+ equalityClause E h (k, v)) 0) as Hg.
  destruct (fold_left glue _ _) as [str n]. cbn [fst] in Hg. rewrite Hg.
  unfold whereOf. rewrite concat_cons. reflexivity.
Qed.

(** A mapping whose values are primitives and which has no field named
    [length] compiles to one equality per field, in the order of the
    fields, joined by AND. *)
Theorem mapping_compiles_to_conjunction (h : list object) (l : nat)
    (fs : list (string * value)) :
  h !! l = Some (plain fs) ->
  NoDup (map fst fs) ->
  lookupField "length" fs = None ->
  Forall (fun kv => primitive (snd kv) = true) fs ->
  compileConditions E this h (VRef l) = Return (whereOf (map (equalityClause E h) fs)).
Proof. apply compile_mapping. Qed.

(** With a scalar primary key not named [length], resolving the key of a
    record and compiling the result gives the equality of the key field
    with the value [x] read from the record, provided [x] is a primitive:
    [x] is the record itself when that is no object, and its key field,
    other than [undefined], when it is one. *)
Theorem resolved_key_compiles_to_equality (h : list object) (f : string) (data x : value) :
  pk this = PkField f ->
  String.eqb f "length" = false ->
  primitive x = true ->
  resolves h f data x ->
  exists h1 condition,
    buildPkCondition this h data = Return (h1, condition)
    /\ compileConditions E this h1 condition
       = Return (" WHERE " +:+ equalityClause E h1 (f, x)).
Proof.
  intros Hpk Hf Hx Hres.
  exists (h ++ [plain [(f, x)]]), (VRef (length h)). split.
  - destruct Hres as [[Hd ->] | (l & -> & Hget & Hne)].
    + now apply buildPkCondition_scalar_record.
    + now apply buildPkCondition_mapping_with_pk.
  - rewrite (compile_mapping (h ++ [plain [(f, x)]]) (length h) [(f, x)]).
    + reflexivity.
    + apply lookup_alloc.
    + repeat constructor. intros Hin. inversion Hin.
    + rewrite lookupField_cons, Hf. reflexivity.
    + repeat constructor. exact Hx.
Qed.

End Conditions.

Section Lists.

Variable E : collaborators.
Variable this : BaseModel.

(** *** Lists of conditions *)

Lemma termItem_round (h : list object) (item : value) (d : term) (str : string) (i : nat) :
  termItem h item d ->
  (let* kv := readItem h item in compileItem E h kv (str, i))
  = Return ((if (0 <? i)%nat then str +:+ " " +:+ toUpperCase E (tconj d) +:+ " " else str)
            +:+ termClause E h d, S i).
Proof.
  intros (li & lt & -> & Hli & Hlt). unfold readItem, getProp.
  rewrite (deref_lookup _ _ _ Hli). cbn [bind ownProp okind array props default from_option id].
  cbn. rewrite (deref_lookup _ _ _ Hlt). cbn. reflexivity.
Qed.

Lemma loop_over_terms (h : list object) (elems : list value) (ds : list term)
    (str : string) (i : nat) :
  Forall2 (termItem h) elems ds ->
  exists n,
    fold_left (fun acc item => let* st := acc in let* kv := item in compileItem E h kv st)
              (map (readItem h) elems) (Return (str, S i))
    = Return (str +:+ continued E h ds, n).
Proof.
  intros Hall. revert str i. induction Hall as [|item d elems ds Hd _ IH]; intros str i.
  - exists (S i). cbn. now rewrite append_empty_r.
  - cbn [map fold_left bind]. rewrite (termItem_round h item d str (S i) Hd).
    cbn [Nat.ltb Nat.leb].
    destruct (IH ((str +:+ " " +:+ toUpperCase E (tconj d) +:+ " ") +:+ termClause E h d) (S i))
      as [n Hn].
    exists n. rewrite Hn. cbn [continued]. now rewrite !append_assoc.
Qed.

(** A list of conditions given in full compiles to its clauses in order:
    operators and conjunctions in upper case, each clause after the first
    behind its own conjunction, the conjunction of the first one dropped. *)
Theorem list_compiles_to_joined_clauses (h : list object) (l : nat)
    (elems : list value) (d : term) (ds : list term) :
  h !! l = Some (array elems) ->
  Forall2 (termItem h) elems (d :: ds) ->
  compileConditions E this h (VRef l)
  = Return (" WHERE " +:+ termClause E h d +:+ continued E h ds).
Proof.
  intros Hl Hall. unfold compileConditions.
  cbn [isNumber isString orb andb bind Underscore.isObject isArray].
  rewrite (deref_lookup _ _ _ Hl). cbn [okind array negb andb].
  rewrite (listItems_array _ _ _ Hl). unfold compileItems.
  inversion Hall as [|item d' elems' ds' Hd Hrest]; subst.
  cbn [map fold_left bind]. rewrite (termItem_round h item d EmptyString 0 Hd).
  cbn [Nat.ltb Nat.leb].
  destruct (loop_over_terms h elems' ds (EmptyString +:+ termClause E h d) 0 Hrest) as [n Hn].
  rewrite Hn. cbn [bind]. rewrite append_assoc. reflexivity.
Qed.

(** The operand of LIKE: with an operator that is LIKE in any case, an
    operand holding no percent sign and no question mark is matched as a
    substring, and any other operand is left as it is. *)
Theorem like_operand_is_wrapped (h : list object) (l li lt : nat)
    (key : value) (op : string) (v : value) :
  h !! l = Some (array [VRef li]) ->
  h !! li = Some (array [key; VRef lt]) ->
  h !! lt = Some (array [VStr op; v]) ->
  toUpperCase E op = "LIKE"%string ->
  compileConditions E this h (VRef l)
  = Return (" WHERE (" +:+ escapeId E h key +:+ " LIKE "
            +:+ escape E h (if hasWildcard (toStr E h v) then v
                            else VStr ("%" +:+ toStr E h v +:+ "%")) +:+ ")").
Proof.
  intros Hl Hli Hlt Hop. unfold compileConditions.
  cbn [isNumber isString orb andb bind Underscore.isObject isArray].
  rewrite (deref_lookup _ _ _ Hl). cbn [okind array negb andb].
  rewrite (listItems_array _ _ _ Hl). unfold compileItems, readItem, getProp.
  cbn [map fold_left bind]. rewrite (deref_lookup _ _ _ Hli). cbn.
  rewrite (deref_lookup _ _ _ Hlt). cbn. rewrite Hop. cbn.
  destruct (hasWildcard (toStr E h v)); reflexivity.
Qed.

End Lists.

Lemma lowcaseString_app (a b : string) :
  lowcaseString (a +:+ b) = lowcaseString a +:+ lowcaseString b.
Proof.
  induction a as [|x a IH]; [reflexivity|].
  change (String (lowcase x) (lowcaseString (a +:+ b))
          = String (lowcase x) (lowcaseString a +:+ lowcaseString b)).
  now rewrite IH.
Qed.

Lemma mentionsSelect_here (word post : string) :
  lowcaseString word = "select"%string -> mentionsSelect (word +:+ post) = true.
Proof.
  intros Hw. destruct word as [|x word]; [discriminate Hw|].
  change (String.prefix "select" (lowcaseString (String x word +:+ post))
          || mentionsSelect (word +:+ post) = true).
  rewrite lowcaseString_app, Hw. destruct (lowcaseString post); reflexivity.
Qed.

Lemma mentionsSelect_anywhere (pre word post : string) :
  lowcaseString word = "select"%string -> mentionsSelect (pre +:+ word +:+ post) = true.
Proof.
  intros Hw. induction pre as [|x pre IH].
  - change (mentionsSelect (word +:+ post) = true). now apply mentionsSelect_here.
  - change (String.prefix "select" (lowcaseString (String x pre +:+ word +:+ post))
            || mentionsSelect (pre +:+ word +:+ post) = true).
    rewrite IH. apply orb_true_r.
Qed.

Section Finding.

Variable E : collaborators.
Variable this : BaseModel.

(** *** What [find] sends and returns *)

Lemma query_sent (sql : string) (w : world) :
  sent (snd (query E sql w)) = sent w ++ [sql].
Proof. unfold query. destruct (driver E _ _); reflexivity. Qed.

Lemma query_reply (sql : string) (w : world) (fresh : list object) (err rows : value) :
  driver E (sent w ++ [sql]) (length (store w)) = Reply fresh err rows ->
  query E sql w =
    (Return (if truthy err then Rejected (Reason err) else Fulfilled rows),
     World (store w ++ fresh) (sent w ++ [sql]) (calls w)).
Proof. intros Hd. unfold query. now rewrite Hd. Qed.

Lemma search_is_query (c opts : value) (w : world) (wh : string) :
  isFunction (store w) opts = false ->
  compileConditions E this (store w) c = Return wh ->
  search E this [c; opts] w
  = query E (format E (store w) "SELECT * FROM ??" [VStr (table this)]
             +:+ wh +:+ compileOptions E (store w) opts) w.
Proof.
  intros Hopts Hc. unfold search.
  rewrite bindCallback_no_callback by now apply trailingCallback_not_function.
  unfold proto_search, bindM, getStore, lift. cbn [arg nth]. now rewrite Hc.
Qed.

Lemma proto_find_absent (c : value) (w : world) :
  proto_find E this [c; VUndefined] w
  = bindM (search E this [c; VRef (length (store w))])
          (fun promise => andThen promise (firstRow E))
          (withStore w (store w ++ [plain [("limit", VNum 1)]])).
Proof.
  unfold proto_find. cbn [arg nth truthy alloc].
  unfold bindM at 1 2 3 4. cbn [getStore putStore fst snd store withStore].
  unfold lift, setProp. rewrite deref_alloc, setOwn_limit. cbn [bind okind props plain].
  rewrite insert_alloc. reflexivity.
Qed.

Lemma proto_find_present (c : value) (l : nat) (o : object) (w : world) :
  store w !! l = Some o ->
  proto_find E this [c; VRef l] w
  = bindM (search E this [c; VRef l])
          (fun promise => andThen promise (firstRow E))
          (withStore w (<[l:=Object (okind o) (setField "limit" (VNum 1) (props o))]> (store w))).
Proof.
  intros Hl. unfold proto_find. cbn [arg nth truthy].
  unfold bindM at 1 2 3 4. cbn [getStore putStore fst snd].
  unfold lift, setProp. cbn [store withStore].
  rewrite (deref_lookup _ _ _ Hl), setOwn_limit. cbn [bind]. reflexivity.
Qed.

Lemma deref_insert (h : list object) (l : nat) (o o' : object) :
  h !! l = Some o -> deref (<[l:=o']> h) l = o'.
Proof.
  intros Hl. apply deref_lookup. apply list_lookup_insert_eq. now apply lookup_lt_Some in Hl.
Qed.

(** The options of [find] after it has written the limit. *)
Lemma compileOptions_limited (h : list object) (l : nat) (o : object) :
  h !! l = Some o ->
  let h' := <[l:=Object (okind o) (setField "limit" (VNum 1) (props o))]> h in
  let orderBy := default VUndefined (ownProp o "orderBy") in
  let start := default VUndefined (ownProp o "start") in
  compileOptions E h' (VRef l)
  = (if truthy orderBy then " ORDER BY " +:+ toStr E h' orderBy else EmptyString)
    +:+ " LIMIT " +:+ join E h' ", " ((if truthy start then [start] else []) ++ [VNum 1]).
Proof.
  intros Hl h' orderBy start. unfold compileOptions, Underscore.valueAt, getProp.
  subst h'. rewrite (deref_insert _ _ _ _ Hl). destruct o as [kd ps]. cbn [okind props].
  rewrite ownProp_limit_same.
  rewrite !ownProp_limit_other by discriminate.
  cbn [default from_option id truthy Z.eqb negb]. reflexivity.
Qed.

(** [find] called with an options object sends one SELECT whose options
    are the caller's with the limit forced to 1: the caller's ordering and
    start are kept, any limit of the caller, a pair included, is gone. *)
Theorem find_limits_to_one_row (c : value) (l : nat) (o : object) (w : world) (wh : string) :
  store w !! l = Some o ->
  isFunction (store w) (VRef l) = false ->
  let h' := <[l:=Object (okind o) (setField "limit" (VNum 1) (props o))]> (store w) in
  compileConditions E this h' c = Return wh ->
  let orderBy := default VUndefined (ownProp o "orderBy") in
  let start := default VUndefined (ownProp o "start") in
  sent (snd (find E this [c; VRef l] w))
  = sent w ++
    [format E h' "SELECT * FROM ??" [VStr (table this)] +:+ wh
     +:+ (if truthy orderBy then " ORDER BY " +:+ toStr E h' orderBy else EmptyString)
     +:+ " LIMIT " +:+ join E h' ", " ((if truthy start then [start] else []) ++ [VNum 1])].
Proof.
  intros Hl Hnf h' Hwh orderBy start. unfold find.
  rewrite bindCallback_no_callback by now apply trailingCallback_not_function.
  rewrite (proto_find_present c l o w Hl). fold h'. unfold bindM.
  assert (Hnf' : isFunction (store (withStore w h')) (VRef l) = false).
  { cbn [store withStore isFunction] in *. subst h'. rewrite (deref_insert _ _ _ _ Hl).
    rewrite (deref_lookup _ _ _ Hl) in Hnf. exact Hnf. }
  rewrite (search_is_query c (VRef l) (withStore w h') wh Hnf' Hwh).
  cbn [store withStore].
  pose proof (query_sent
    (format E h' "SELECT * FROM ??" [VStr (table this)] +:+ wh +:+ compileOptions E h' (VRef l))
    (withStore w h')) as Hs.
  destruct (query E _ (withStore w h')) as [[p|e] w2]; cbn [snd] in *.
  - rewrite andThen_firstRow_store. rewrite Hs. cbn [sent withStore].
    subst h'. now rewrite (compileOptions_limited _ _ _ Hl).
  - rewrite Hs. cbn [sent withStore]. subst h'. now rewrite (compileOptions_limited _ _ _ Hl).
Qed.

(** [find] called without options: the first row of the reply, or
    [null] when the reply holds no row; a refusal of the driver comes back
    as it is. *)
Lemma find_absent_options (c : value) (w : world) (wh : string)
    (fresh : list object) (err rows : value) :
  let h2 := store w ++ [plain [("limit", VNum 1)]] in
  compileConditions E this h2 c = Return wh ->
  let sql := format E h2 "SELECT * FROM ??" [VStr (table this)] +:+ wh +:+ " LIMIT 1" in
  driver E (sent w ++ [sql]) (length h2) = Reply fresh err rows ->
  find E this [c; VUndefined] w
  = (let w2 := World (h2 ++ fresh) (sent w ++ [sql]) (calls w) in
     if truthy err then (Return (Rejected (Reason err)), w2)
     else (Return (settle (fst (firstRow E rows w2))), w2)).
Proof.
  intros h2 Hwh sql Hd. subst sql h2. unfold find.
  rewrite bindCallback_no_callback by reflexivity.
  rewrite proto_find_absent. unfold bindM.
  rewrite (search_is_query c (VRef (length (store w)))
             (withStore w (store w ++ [plain [("limit", VNum 1)]])) wh).
  - cbn [store withStore]. rewrite compileOptions_limit_one.
    rewrite (query_reply _ _ fresh err rows) by exact Hd.
    cbn [store withStore sent calls]. destruct (truthy err); [reflexivity|].
    unfold andThen.
    pose proof (firstRow_store E rows
      (World ((store w ++ [plain [("limit", VNum 1)]]) ++ fresh)
             (sent w ++ [format E (store w ++ [plain [("limit", VNum 1)]]) "SELECT * FROM ??"
                           [VStr (table this)] +:+ wh +:+ " LIMIT 1"]) (calls w))) as Hf.
    destruct (firstRow E rows _) as [cp w3]. cbn [fst snd] in *. now subst w3.
  - cbn [store withStore isFunction]. now rewrite deref_alloc.
  - exact Hwh.
Qed.

End Finding.

Section Reading.

Variable E : collaborators.
Variable this : BaseModel.

(** [find] called with the condition alone, or with [undefined] for the
    options, sends one SELECT limited to one row and resolves to the first
    row of the reply, or to [null] when the reply holds no row. *)
Theorem find_resolves_first_row_or_null (c : value) (args : list value) (w : world)
    (wh : string) (fresh : list object) (err : value) (r : nat) (rows : list value) :
  args = [c] \/ args = [c; VUndefined] ->
  isFunction (store w) c = false ->
  let h2 := store w ++ [plain [("limit", VNum 1)]] in
  compileConditions E this h2 c = Return wh ->
  let sql := format E h2 "SELECT * FROM ??" [VStr (table this)] +:+ wh +:+ " LIMIT 1" in
  driver E (sent w ++ [sql]) (length h2) = Reply fresh err (VRef r) ->
  truthy err = false ->
  (h2 ++ fresh) !! r = Some (array rows) ->
  find E this args w
  = (Return (Fulfilled (match rows with [] => VNull | row :: _ => row end)),
     World (h2 ++ fresh) (sent w ++ [sql]) (calls w)).
Proof.
  intros Hargs Hc h2 Hwh sql Hd Herr Hr.
  assert (Hfind : find E this args w = find E this [c; VUndefined] w).
  { destruct Hargs as [-> | ->]; [|reflexivity]. unfold find.
    rewrite bindCallback_no_callback by now apply trailingCallback_single.
    rewrite bindCallback_no_callback by reflexivity. reflexivity. }
  rewrite Hfind, (find_absent_options E this c w wh fresh err (VRef r) Hwh Hd), Herr.
  cbv zeta. fold h2 sql. rewrite (firstRow_of_array E r rows) by exact Hr. reflexivity.
Qed.

(** *** [findOne] *)

(** [findOne] called with a field and a condition resolves to nothing
    when the reply holds no row, and to the field of the first row
    otherwise: a column stored as [null] gives [null], a column that the
    row lacks gives nothing, like no row at all. *)
Theorem findOne_projects_first_row (k : string) (c : value) (w : world)
    (wh : string) (fresh : list object) (err : value) (r : nat) (rows : list value) :
  let h2 := store w ++ [plain [("limit", VNum 1)]] in
  compileConditions E this h2 c = Return wh ->
  let sql := format E h2 "SELECT * FROM ??" [VStr (table this)] +:+ wh +:+ " LIMIT 1" in
  driver E (sent w ++ [sql]) (length h2) = Reply fresh err (VRef r) ->
  truthy err = false ->
  (h2 ++ fresh) !! r = Some (array rows) ->
  Forall (fun row => Underscore.isObject row = true) rows ->
  findOne E this [VStr k; c] w
  = (Return (Fulfilled (match rows with
                        | [] => VUndefined
                        | row :: _ => Underscore.valueAt (h2 ++ fresh) row k
                        end)),
     World (h2 ++ fresh) (sent w ++ [sql]) (calls w)).
Proof.
  intros h2 Hwh sql Hd Herr Hr Hrows. unfold findOne. cbn [arg nth]. unfold bindM.
  rewrite (find_absent_options E this c w wh fresh err (VRef r) Hwh Hd), Herr.
  cbv zeta. fold h2 sql. rewrite (firstRow_of_array E r rows) by exact Hr. cbn [fst settle].
  unfold andThen. destruct rows as [|row rows']; [reflexivity|].
  apply Forall_cons in Hrows as [Hrow _]. destruct row; try discriminate. reflexivity.
Qed.

(** *** [findAll] *)

(** [findAll] sends the SELECT with the compiled options and no WHERE. *)
Theorem findAll_has_no_condition (options : value) (w : world) :
  isFunction (store w) options = false ->
  let h1 := store w ++ [plain []] in
  findAll E this [options] w
  = query E (format E h1 "SELECT * FROM ??" [VStr (table this)] +:+ compileOptions E h1 options)
            (withStore w h1).
Proof.
  intros Hopts h1. unfold findAll. cbn [arg nth alloc].
  unfold bindM at 1 2. cbn [getStore putStore fst snd]. fold h1.
  rewrite (search_is_query E this (VRef (length (store w))) options (withStore w h1) EmptyString).
  - reflexivity.
  - cbn [store withStore]. destruct options; try reflexivity.
    cbn [isFunction] in *.
    destruct (decide (l < length (store w))) as [Hlt|Hge].
    + unfold deref in *. subst h1. now rewrite lookup_app_l.
    + unfold deref in *. subst h1.
      rewrite (lookup_ge_None_2 (store w) l) in Hopts by lia.
      destruct (decide (l = length (store w))) as [->|Hne].
      * now rewrite lookup_alloc.
      * rewrite lookup_ge_None_2; [reflexivity|]. rewrite length_app. simpl. lia.
  - cbn [store withStore].
    apply (compileConditions_empty E this h1 [VRef (length (store w))]).
    right; right. exists (length (store w)). split; [reflexivity | apply lookup_alloc].
Qed.

(** *** [queryOne] *)

(** [queryOne] refuses a statement that does not hold the word select:
    it throws, and nothing reaches the driver. *)
Theorem queryOne_refuses_other_statements (sql : string) (w : world) :
  mentionsSelect sql = false ->
  queryOne E sql w
  = (Throw (DbError "invalid_call" (VStr ("only select allowed: " +:+ sql))), w).
Proof. intros H. unfold queryOne, bindM. now rewrite H. Qed.

(** The test of [queryOne] looks for the word anywhere and in any case:
    a statement of any kind that holds it is handed to the driver as it
    is. *)
Theorem queryOne_accepts_select_anywhere (pre word post : string) (w : world) :
  lowcaseString word = "select"%string ->
  sent (snd (queryOne E (pre +:+ word +:+ post) w)) = sent w ++ [pre +:+ word +:+ post].
Proof.
  intros Hw. unfold queryOne, bindM.
  rewrite (mentionsSelect_anywhere pre word post Hw). cbn [negb ret].
  pose proof (query_sent E (pre +:+ word +:+ post) w) as Hs.
  destruct (query E (pre +:+ word +:+ post) w) as [[p|e] w1]; cbn [snd] in *; [|exact Hs].
  unfold andThen. destruct p; try exact Hs.
  unfold firstColumn, bindM, getStore, lift, ret.
  destruct (getProp (store w1) v "length") as [len|e]; [|exact Hs].
  destruct (looseEqZero E (store w1) len); [exact Hs|].
  destruct (getProp (store w1) v "0") as [row|e]; [|exact Hs].
  destruct (getProp (store w1) row _); exact Hs.
Qed.

(** [queryOne] resolves to nothing when the reply holds no row, and to
    the first column of the first row otherwise. *)
Theorem queryOne_resolves_first_column (sql : string) (w : world)
    (fresh : list object) (err : value) (r : nat) (rows : list value) :
  mentionsSelect sql = true ->
  driver E (sent w ++ [sql]) (length (store w)) = Reply fresh err (VRef r) ->
  truthy err = false ->
  (store w ++ fresh) !! r = Some (array rows) ->
  Forall (fun row => exists rl k x fs,
            row = VRef rl /\ (store w ++ fresh) !! rl = Some (plain ((k, x) :: fs))) rows ->
  exists first,
    queryOne E sql w
    = (Return (Fulfilled first), World (store w ++ fresh) (sent w ++ [sql]) (calls w))
    /\ match rows with
       | [] => first = VUndefined
       | row :: _ => exists rl k x fs,
           row = VRef rl /\ (store w ++ fresh) !! rl = Some (plain ((k, x) :: fs)) /\ first = x
       end.
Proof.
  intros Hsel Hd Herr Hr Hrows. unfold queryOne, bindM. rewrite Hsel. cbn [negb ret].
  rewrite (query_reply E sql w fresh err (VRef r) Hd), Herr.
  unfold andThen, firstColumn, bindM, getStore, lift, ret, getProp. cbn [store].
  rewrite (deref_lookup _ _ _ Hr).
  destruct rows as [|row rows']; [exists VUndefined; split; reflexivity|].
  apply Forall_cons in Hrows as [(rl & k & x & fs & -> & Hrl) _].
  exists x. split; [|now exists rl, k, x, fs].
  cbn. unfold Underscore.keys. rewrite (deref_lookup _ _ _ Hrl). cbn.
  unfold ownProp, lookupField. cbn. rewrite String.eqb_refl. reflexivity.
Qed.

(** *** [replace] when the lookup fails *)

(** When the driver refuses the SELECT of [replace], the result is
    rejected with the driver's error, and neither an UPDATE nor an INSERT
    is sent. *)
Theorem replace_stops_on_failed_lookup (args : list value) (w : world)
    (h1 : list object) (condition : value) (wh : string)
    (fresh : list object) (err rows : value) :
  trailingCallback (store w) args = None ->
  buildPkCondition this (store w) (arg 0 args) = Return (h1, condition) ->
  let h2 := h1 ++ [plain [("limit", VNum 1)]] in
  compileConditions E this h2 condition = Return wh ->
  let sql := format E h2 "SELECT * FROM ??" [VStr (table this)] +:+ wh +:+ " LIMIT 1" in
  driver E (sent w ++ [sql]) (length h2) = Reply fresh err rows ->
  truthy err = true ->
  replace E this args w
  = (Return (Rejected (Reason err)), World (h2 ++ fresh) (sent w ++ [sql]) (calls w)).
Proof.
  intros Hcb Hpk h2 Hwh sql Hd Herr.
  destruct (buildPkCondition_allocates _ _ _ _ _ Hpk) as (fs & Hh1 & Hcond).
  unfold replace. rewrite bindCallback_no_callback by exact Hcb.
  unfold proto_replace.
  unfold bindM at 1 2 3 4. cbn [getStore fst snd]. unfold lift. rewrite Hpk.
  cbn [putStore]. subst condition. cbn [isUndefined ret]. unfold bindM.
  assert (Hfind : find E this [VRef (length (store w))] (withStore w h1)
                  = find E this [VRef (length (store w)); VUndefined] (withStore w h1)).
  { unfold find. rewrite bindCallback_no_callback.
    - rewrite bindCallback_no_callback by reflexivity. reflexivity.
    - apply trailingCallback_single. cbn [store withStore isFunction]. subst h1.
      now rewrite deref_alloc. }
  rewrite Hfind.
  rewrite (find_absent_options E this (VRef (length (store w))) (withStore w h1) wh fresh err rows
             Hwh Hd), Herr.
  cbv zeta. reflexivity.
Qed.

End Reading.

Lemma lookupField_insertIndexField (i : nat) (k k' : string) (v : value)
    (fs : list (string * value)) :
  lookupField k fs = None ->
  lookupField k' (insertIndexField i k v fs)
  = if String.eqb k k' then Some v else lookupField k' fs.
Proof.
  induction fs as [|[a x] fs IH]; intros Hk.
  - cbn [insertIndexField]. now rewrite lookupField_cons.
  - rewrite lookupField_cons in Hk. destruct (String.eqb a k) eqn:Hak; [discriminate Hk|].
    cbn [insertIndexField]. destruct (index_of_key a) as [j|].
    + destruct (j <? i)%nat.
      * rewrite !lookupField_cons, (IH Hk).
        destruct (String.eqb a k') eqn:Hak'; [|reflexivity].
        apply String.eqb_eq in Hak' as ->. now rewrite String.eqb_sym, Hak.
      * now rewrite lookupField_cons.
    + now rewrite lookupField_cons.
Qed.

(** A write to a field is read back, and no other field sees it. *)
Lemma lookupField_setField (k k' : string) (v : value) (fs : list (string * value)) :
  lookupField k' (setField k v fs) = if String.eqb k k' then Some v else lookupField k' fs.
Proof.
  unfold setField. destruct (lookupField k fs) as [x|] eqn:Hk.
  - destruct (String.eqb k k') eqn:Hkk.
    + apply String.eqb_eq in Hkk as <-. eapply lookupField_replaceField_eq; eauto.
    + apply lookupField_replaceField_ne. apply String.eqb_neq. now rewrite String.eqb_sym.
  - destruct (index_of_key k) as [i|].
    + now apply lookupField_insertIndexField.
    + rewrite lookupField_snoc. destruct (lookupField k' fs) as [y|] eqn:Hk'; [|reflexivity].
      destruct (String.eqb k k') eqn:Hkk; [|reflexivity].
      apply String.eqb_eq in Hkk as <-. congruence.
Qed.

Lemma pick_fields_lookup (h : list object) (data : value) (ks : list string)
    (acc : list (string * value)) (k : string) :
  lookupField k (fold_left
    (fun fs k => if hasProp h data k then setField k (Underscore.valueAt h data k) fs else fs)
    ks acc)
  = if existsb (String.eqb k) ks && hasProp h data k
    then Some (Underscore.valueAt h data k) else lookupField k acc.
Proof.
  revert acc. induction ks as [|k1 ks IH]; intros acc; cbn [fold_left existsb]; [reflexivity|].
  rewrite IH. destruct (String.eqb k k1) eqn:Hk.
  - apply String.eqb_eq in Hk as <-. cbn [orb andb].
    destruct (hasProp h data k) eqn:Hhas.
    + rewrite andb_true_r. destruct (existsb _ ks); [reflexivity|].
      cbn [andb]. now rewrite lookupField_setField, String.eqb_refl.
    + now rewrite andb_false_r.
  - cbn [orb]. destruct (existsb (String.eqb k) ks && hasProp h data k); [reflexivity|].
    destruct (hasProp h data k1); [|reflexivity].
    now rewrite lookupField_setField, String.eqb_sym, Hk.
Qed.

Lemma sendsAtMost_refl (n : nat) (w : world) : sendsAtMost n w w.
Proof. exists []. split; [now rewrite app_nil_r | simpl; lia]. Qed.

Lemma sendsAtMost_trans (a b : nat) (w w1 w2 : world) :
  sendsAtMost a w w1 -> sendsAtMost b w1 w2 -> sendsAtMost (a + b) w w2.
Proof.
  intros (s1 & H1 & L1) (s2 & H2 & L2). exists (s1 ++ s2). split.
  - now rewrite H2, H1, app_assoc.
  - rewrite length_app. lia.
Qed.

Lemma sends_ret {A} (n : nat) (a : A) : sends n (ret a).
Proof. intros w. apply sendsAtMost_refl. Qed.

Lemma sends_throw {A} (n : nat) (e : error) : sends n (@throw A e).
Proof. intros w. apply sendsAtMost_refl. Qed.

Lemma sends_lift {A} (n : nat) (c : completion A) : sends n (lift c).
Proof. intros w. apply sendsAtMost_refl. Qed.

Lemma sends_getStore (n : nat) : sends n getStore.
Proof. intros w. apply sendsAtMost_refl. Qed.

Lemma sends_putStore (n : nat) (h : list object) : sends n (putStore h).
Proof. intros w. exists []. split; [simpl; now rewrite app_nil_r | simpl; lia]. Qed.

Lemma sends_bind {A B} (a b : nat) (m : M A) (k : A -> M B) :
  sends a m -> (forall x, sends b (k x)) -> sends (a + b) (bindM m k).
Proof.
  intros Hm Hk w. unfold bindM. specialize (Hm w).
  destruct (m w) as [[x|e] w1]; cbn [snd] in *.
  - eapply sendsAtMost_trans; [exact Hm | apply Hk].
  - destruct Hm as (s & Hs & L). exists s. split; [exact Hs | lia].
Qed.

Lemma sends_first {A B} (n : nat) (m : M A) (k : A -> M B) :
  sends 0 m -> (forall x, sends n (k x)) -> sends n (bindM m k).
Proof. intros Hm Hk. apply (sends_bind 0 n); assumption. Qed.

Lemma sends_last {A B} (n : nat) (m : M A) (k : A -> M B) :
  sends n m -> (forall x, sends 0 (k x)) -> sends n (bindM m k).
Proof.
  intros Hm Hk. replace n with (n + 0) by lia. apply sends_bind; assumption.
Qed.

Lemma sends_andThen (n : nat) (p : promise) (handler : value -> M promise) :
  (forall v, sends n (handler v)) -> sends n (andThen p handler).
Proof.
  intros Hh w. unfold andThen. destruct p; try apply sendsAtMost_refl.
  specialize (Hh v w). destruct (handler v w) as [c w1]. exact Hh.
Qed.

Lemma sends_forEach {A} (xs : list A) (body : A -> M unit) :
  (forall x, sends 0 (body x)) -> sends 0 (forEach xs body).
Proof.
  intros Hb. induction xs as [|x xs IH]; cbn [forEach].
  - apply sends_ret.
  - apply sends_first; [apply Hb | intros _; exact IH].
Qed.

Section Writing.

Variable E : collaborators.
Variable this : BaseModel.

(** *** The fields that [insert] writes *)

(** [insert] called without constraints sends one INSERT whose data is a
    new object holding the fields of the record that the configured
    constraints name, and no other. *)
Theorem insert_keeps_allowed_fields (data constraints : value) (w : world) :
  truthy constraints = false ->
  exists fs,
    insert E this [data; constraints] w
    = query E (format E (store w ++ [plain fs]) "INSERT INTO ?? SET ?"
                 [VStr (table this); VRef (length (store w))])
              (withStore w (store w ++ [plain fs]))
    /\ forall k, lookupField k fs
         = if existsb (String.eqb k) (Underscore.keys (store w) (Base.constraints this))
              && hasProp (store w) data k
           then Some (Underscore.valueAt (store w) data k) else None.
Proof.
  intros Hc. eexists. split.
  - unfold insert. rewrite bindCallback_no_callback.
    + unfold proto_insert. cbn [arg nth]. rewrite Hc.
      unfold Underscore.pick, alloc. reflexivity.
    + unfold trailingCallback, Underscore.last. cbn [list.last default from_option id].
      destruct constraints; try reflexivity. discriminate Hc.
  - intros k. apply pick_fields_lookup.
Qed.

(** *** Nothing but the driver call sends *)

Lemma sends_query (n : nat) (sql : string) : sends (S n) (query E sql).
Proof.
  intros w. exists [sql]. split; [apply query_sent | simpl; lia].
Qed.

Lemma sends_invoke (n : nat) (f : nat) (args : list cbarg) : sends n (invoke f args).
Proof. intros w. exists []. split; [simpl; now rewrite app_nil_r | simpl; lia]. Qed.

Lemma sends_bindCallback (n : nat) (oldMethod : method) :
  (forall args, sends n (oldMethod args)) ->
  forall args, sends n (bindCallback oldMethod args).
Proof.
  intros Hold args. unfold bindCallback.
  apply sends_first; [apply sends_getStore | intros h].
  apply sends_last; [apply Hold | intros p].
  destruct (trailingCallback h args) as [f|]; [|apply sends_ret].
  destruct p; try apply sends_ret;
    (apply sends_first; [apply sends_invoke | intros _; apply sends_ret]).
Qed.

Lemma sends_proto_search (args : list value) : sends 1 (proto_search E this args).
Proof.
  unfold proto_search.
  apply sends_first; [apply sends_getStore | intros h].
  apply sends_first; [apply sends_lift | intros wh]. apply sends_query.
Qed.

Lemma sends_search (args : list value) : sends 1 (search E this args).
Proof. apply sends_bindCallback. apply sends_proto_search. Qed.

Lemma sends_firstRow (rows : value) : sends 0 (firstRow E rows).
Proof.
  unfold firstRow.
  apply sends_first; [apply sends_getStore | intros h].
  apply sends_first; [apply sends_lift | intros len].
  destruct (looseEqZero E h len); [apply sends_ret|].
  apply sends_first; [apply sends_lift | intros row]. apply sends_ret.
Qed.

Lemma sends_proto_find (args : list value) : sends 1 (proto_find E this args).
Proof.
  unfold proto_find.
  apply sends_first; [apply sends_getStore | intros h].
  destruct (if truthy (arg 1 args) then (h, arg 1 args) else alloc h (plain []))
    as [h' options].
  apply sends_first; [apply sends_putStore | intros _].
  apply sends_first; [apply sends_lift | intros h2].
  apply sends_first; [apply sends_putStore | intros _].
  apply sends_last; [apply sends_search | intros p].
  apply sends_andThen. apply sends_firstRow.
Qed.

Lemma sends_find (args : list value) : sends 1 (find E this args).
Proof. apply sends_bindCallback. apply sends_proto_find. Qed.

Lemma sends_remove (args : list value) : sends 1 (remove E this args).
Proof.
  unfold remove.
  apply sends_first; [apply sends_getStore | intros h].
  apply sends_first; [apply sends_lift | intros wh]. apply sends_query.
Qed.

Lemma sends_validate (data constraints : value) : sends 0 (validate E this data constraints).
Proof.
  unfold validate. apply sends_first.
  - destruct constraints as [| | [|] | | |]; try apply sends_ret;
      (apply sends_first; [apply sends_getStore | intros h];
       apply sends_first; [apply sends_lift | intros [h1 c]];
       apply sends_first; [apply sends_putStore | intros _];
       apply sends_first; [|intros _; apply sends_ret];
       apply sends_forEach; intros key;
       apply sends_first; [apply sends_getStore | intros h2];
       apply sends_first; [apply sends_lift | intros target];
       apply sends_first; [apply sends_lift | intros h3]; apply sends_putStore).
  - intros c. apply sends_first; [apply sends_getStore | intros h].
    destruct (validateJs E h data c) as [fresh errors].
    apply sends_first; [apply sends_putStore | intros _]. apply sends_ret.
Qed.

Lemma sends_proto_insert (args : list value) : sends 1 (proto_insert E this args).
Proof.
  unfold proto_insert. apply sends_first.
  - destruct (truthy (arg 1 args)); [|apply sends_ret].
    apply sends_first; [apply sends_validate | intros errors].
    destruct (truthy errors); [apply sends_throw | apply sends_ret].
  - intros _. apply sends_first; [apply sends_getStore | intros h].
    unfold Underscore.pick, alloc.
    apply sends_first; [apply sends_putStore | intros _]. apply sends_query.
Qed.

Lemma sends_proto_update (args : list value) : sends 1 (proto_update E this args).
Proof.
  unfold proto_update. apply sends_first.
  - destruct (truthy (arg 2 args)); [|apply sends_ret].
    apply sends_first; [apply sends_getStore | intros h].
    destruct (validateJs E h (arg 0 args) (arg 2 args)) as [fresh errors].
    apply sends_first; [apply sends_putStore | intros _].
    destruct (truthy errors); [apply sends_throw | apply sends_ret].
  - intros _. apply sends_first; [apply sends_getStore | intros h].
    unfold Underscore.pick, alloc.
    apply sends_first; [apply sends_putStore | intros _].
    apply sends_first; [apply sends_lift | intros wh]. apply sends_query.
Qed.

Lemma sends_proto_replace (args : list value) : sends 2 (proto_replace E this args).
Proof.
  unfold proto_replace.
  apply sends_first; [apply sends_getStore | intros h].
  apply sends_first; [apply sends_lift | intros [h1 condition]].
  apply sends_first; [apply sends_putStore | intros _].
  apply sends_first;
    [destruct (isUndefined condition); [apply sends_throw | apply sends_ret] | intros _].
  apply (sends_bind 1 1); [apply sends_find | intros p].
  apply sends_andThen. intros row.
  destruct (truthy row); apply sends_bindCallback;
    [apply sends_proto_update | apply sends_proto_insert].
Qed.

Lemma sends_firstColumn (rows : value) : sends 0 (firstColumn E rows).
Proof.
  unfold firstColumn.
  apply sends_first; [apply sends_getStore | intros h].
  apply sends_first; [apply sends_lift | intros len].
  destruct (looseEqZero E h len); [apply sends_ret|].
  apply sends_first; [apply sends_lift | intros row].
  apply sends_first; [apply sends_lift | intros x]. apply sends_ret.
Qed.

(** No call sends more than one statement, except [replace], which sends
    two at most; and no call alters the statements sent before it. *)
Theorem statements_per_call (args : list value) (sql : string) :
  sends 1 (search E this args) /\ sends 1 (find E this args)
  /\ sends 1 (findByPk E this args) /\ sends 1 (findOne E this args)
  /\ sends 1 (findAll E this args) /\ sends 1 (queryOne E sql)
  /\ sends 1 (insert E this args) /\ sends 1 (update E this args)
  /\ sends 1 (remove E this args) /\ sends 1 (delete E this args)
  /\ sends 2 (replace E this args).
Proof.
  repeat split.
  - apply sends_search.
  - apply sends_find.
  - apply sends_bindCallback. intros a. apply sends_find.
  - unfold findOne. apply sends_last; [apply sends_find | intros p].
    apply sends_andThen. intros row. destruct (isNull row); [apply sends_ret|].
    apply sends_first; [apply sends_getStore | intros h].
    apply sends_first; [apply sends_lift | intros x]. apply sends_ret.
  - unfold findAll. apply sends_first; [apply sends_getStore | intros h].
    unfold alloc. apply sends_first; [apply sends_putStore | intros _]. apply sends_search.
  - unfold queryOne. apply sends_first.
    + destruct (negb (mentionsSelect sql)); [apply sends_throw | apply sends_ret].
    + intros _. apply sends_last; [apply sends_query | intros p].
      apply sends_andThen. apply sends_firstColumn.
  - apply sends_bindCallback. apply sends_proto_insert.
  - apply sends_bindCallback. apply sends_proto_update.
  - apply sends_remove.
  - apply sends_bindCallback. apply sends_remove.
  - apply sends_bindCallback. apply sends_proto_replace.
Qed.

(** *** The validation gate *)

Lemma validate_keeps_sent (data constraints : value) (w : world) :
  sent (snd (validate E this data constraints w)) = sent w.
Proof.
  destruct (sends_validate data constraints w) as (stmts & Hs & Hlen).
  destruct stmts; [now rewrite app_nil_r in Hs | simpl in Hlen; lia].
Qed.

(** When validate.js reports violations, [insert] throws them as a
    [DbError] before anything is sent. *)
Theorem insert_stops_on_violation (data constraints : value) (w w1 : world)
    (errors : value) :
  truthy constraints = true ->
  isFunction (store w) constraints = false ->
  validate E this data constraints w = (Return errors, w1) ->
  truthy errors = true ->
  insert E this [data; constraints] w = (Throw (DbError "validition" errors), w1)
  /\ sent w1 = sent w.
Proof.
  intros Hc Hnf Hv He. split.
  - unfold insert. rewrite bindCallback_no_callback by now apply trailingCallback_not_function.
    unfold proto_insert. cbn [arg nth]. rewrite Hc. unfold bindM at 1 2. rewrite Hv, He.
    reflexivity.
  - pose proof (validate_keeps_sent data constraints w) as H. now rewrite Hv in H.
Qed.

(** [update] hands validate.js its condition, not its data: when that
    reports violations the call throws them, whatever the data, and
    nothing is sent. *)
Theorem update_validates_the_condition (conditions data constraints : value) (w : world)
    (fresh : list object) (errors : value) :
  truthy constraints = true ->
  isFunction (store w) constraints = false ->
  validateJs E (store w) conditions constraints = (fresh, errors) ->
  truthy errors = true ->
  update E this [conditions; data; constraints] w
  = (Throw (DbError "validition" errors), World (store w ++ fresh) (sent w) (calls w)).
Proof.
  intros Hc Hnf Hv He. unfold update. rewrite bindCallback_no_callback.
  - unfold proto_update. cbn [arg nth]. rewrite Hc.
    unfold bindM at 1 2 3. cbn [getStore fst snd]. rewrite Hv.
    unfold bindM. cbn [putStore]. rewrite He. reflexivity.
  - unfold trailingCallback, Underscore.last. cbn [list.last default from_option id].
    destruct constraints; try reflexivity. now rewrite Hnf.
Qed.

(** *** Composite keys *)

Lemma composite_fold_lookup (h : list object) (l : nat) (names : list string)
    (acc : list (string * value)) :
  Forall (fun k => truthy (Underscore.valueAt h (VRef l) k) = true) names ->
  exists fs,
    fold_left (fun acc key =>
                 let* condition := acc in
                 let* x := getProp h (VRef l) key in
                 if negb (truthy x) then Throw (missing key)
                 else Return (setField key x condition))
              names (Return acc) = Return fs
    /\ forall k, lookupField k fs
         = if existsb (String.eqb k) names then Some (Underscore.valueAt h (VRef l) k)
           else lookupField k acc.
Proof.
  intros Hall. revert acc. induction Hall as [|key names Hkey _ IH]; intros acc.
  - exists acc. split; reflexivity.
  - cbn [fold_left bind getProp]. unfold Underscore.valueAt, getProp in Hkey. rewrite Hkey.
    cbn [negb].
    destruct (IH (setField key (default VUndefined (ownProp (deref h l) key)) acc))
      as (fs & Hfs & Hlook).
    exists fs. split; [exact Hfs|]. intros k. rewrite Hlook. cbn [existsb].
    destruct (String.eqb k key) eqn:Hk; cbn [orb].
    + apply String.eqb_eq in Hk as ->.
      destruct (existsb _ names); [reflexivity|].
      now rewrite lookupField_setField, String.eqb_refl.
    + destruct (existsb _ names); [reflexivity|].
      now rewrite lookupField_setField, String.eqb_sym, Hk.
Qed.

(** With a composite key, a mapping that holds a truthy value for every
    listed field resolves to a new object holding those fields and their
    values, and nothing else. *)
Theorem composite_key_resolves (h : list object) (l : nat) (names : list string) :
  pk this = PkFields names ->
  Forall (fun k => truthy (Underscore.valueAt h (VRef l) k) = true) names ->
  exists fs,
    buildPkCondition this h (VRef l) = Return (h ++ [plain fs], VRef (length h))
    /\ forall k, lookupField k fs
         = if existsb (String.eqb k) names then Some (Underscore.valueAt h (VRef l) k)
           else None.
Proof.
  intros Hpk Hall. destruct (composite_fold_lookup h l names [] Hall) as (fs & Hfs & Hlook).
  exists fs. split; [|exact Hlook].
  unfold buildPkCondition. rewrite Hpk. cbn [Underscore.isObject]. now rewrite Hfs.
Qed.

(** With a composite key, a listed field counts as missing when its
    value is falsy, so a zero, an empty string, [null] or [false] is
    refused like an absent field; the first such field in the order of the
    key is the one named. *)
Theorem composite_falsy_field_is_refused (h : list object) (l : nat)
    (pre post : list string) (key : string) :
  pk this = PkFields (pre ++ key :: post) ->
  Forall (fun k => truthy (Underscore.valueAt h (VRef l) k) = true) pre ->
  truthy (Underscore.valueAt h (VRef l) key) = false ->
  buildPkCondition this h (VRef l) = Throw (missing key).
Proof. apply composite_missing_field. Qed.

End Writing.

(** *** Descriptors with a short operator tuple *)

Lemma sameObject_refl (o : object) : sameObject o o.
Proof. split; [reflexivity | intros k _; reflexivity]. Qed.

Lemma ownProp_same (o o' : object) (k : string) :
  sameObject o o' -> k <> "limit"%string -> ownProp o' k = ownProp o k.
Proof.
  intros [Hk Hp] Hne. unfold ownProp. rewrite Hk, (Hp k Hne). reflexivity.
Qed.

Lemma getProp_same (h h' : list object) (v : value) (k : string) :
  same h h' v -> k <> "limit"%string -> getProp h' v k = getProp h v k.
Proof.
  intros Hs Hne. destruct v; try reflexivity. simpl in *.
  now rewrite (ownProp_same _ _ k Hs Hne).
Qed.

Lemma readItem_same (h h' : list object) (item : value) :
  same h h' item -> readItem h' item = readItem h item.
Proof.
  intros Hs. unfold readItem.
  rewrite (getProp_same h h' item "0" Hs) by discriminate.
  rewrite (getProp_same h h' item "1" Hs) by discriminate. reflexivity.
Qed.

Lemma readItem_value (h : list object) (item k v : value) :
  readItem h item = Return (k, v) -> v = Underscore.valueAt h item "1".
Proof.
  unfold readItem, Underscore.valueAt.
  destruct (getProp h item "0") as [k'|]; cbn [bind]; [|intros H; discriminate H].
  destruct (getProp h item "1") as [v'|]; cbn [bind]; intros H; [|discriminate H].
  now injection H as _ ->.
Qed.

Lemma okind_array_lookup (h : list object) (l : nat) (elems : list value) :
  okind (deref h l) = KArray elems -> exists ps, h !! l = Some (Object (KArray elems) ps).
Proof.
  unfold deref. destruct (h !! l) as [[kd ps]|]; cbn [default from_option id okind plain];
    intros H; [|discriminate H].
  subst kd. now exists ps.
Qed.

Lemma array_index_values (h : list object) (l : nat) (elems : list value)
    (ps : list (string * value)) :
  h !! l = Some (Object (KArray elems) ps) ->
  map (fun i => Underscore.valueAt h (VRef l) (key_of_nat i)) (seq 0 (length elems)) = elems.
Proof.
  intros Hl. apply list_eq. intros i. rewrite list_lookup_fmap.
  destruct (elems !! i) as [x|] eqn:Hi.
  - rewrite (lookup_seq_lt _ _ _) by (now apply lookup_lt_Some in Hi). simpl.
    now rewrite (array_valueAt _ _ _ _ _ _ Hl Hi).
  - rewrite lookup_seq_ge; [reflexivity|]. now apply lookup_ge_None in Hi.
Qed.

(** [_.each] visits the elements of an array in order, whatever other
    properties the array has. *)
Lemma array_items (h : list object) (l : nat) (elems : list value) :
  okind (deref h l) = KArray elems ->
  exists extra, map fst (Underscore.entries h (VRef l)) = elems ++ extra.
Proof.
  intros Hk. destruct (okind_array_lookup _ _ _ Hk) as [ps Hl].
  unfold Underscore.entries, Underscore.eachKeys, Underscore.arrayLikeLength.
  assert (Hlen : Underscore.valueAt h (VRef l) "length" = VNum (Z.of_nat (length elems))).
  { unfold Underscore.valueAt, getProp, ownProp. rewrite Hk. reflexivity. }
  rewrite Hlen.
  destruct ((0 <=? Z.of_nat (length elems))%Z && _)%bool.
  - exists []. rewrite Nat2Z.id, !map_map. cbn [fst]. rewrite app_nil_r.
    exact (array_index_values _ _ _ _ Hl).
  - unfold Underscore.keys. rewrite Hk.
    exists (map (fun k => Underscore.valueAt h (VRef l) k) (map fst (props (deref h l)))).
    rewrite !map_map. cbn [fst]. rewrite map_app, !map_map.
    now rewrite (array_index_values _ _ _ _ Hl).
Qed.

Lemma same_refl (h : list object) (v : value) : same h h v.
Proof. destruct v; simpl; trivial. apply sameObject_refl. Qed.

Lemma same_alloc_limit (h : list object) (x v : value) :
  same h (h ++ [plain [("limit", x)]]) v.
Proof.
  destruct v as [| | | | |l]; simpl; trivial. unfold deref.
  destruct (lt_eq_lt_dec l (length h)) as [[Hlt|Heq]|Hgt].
  - rewrite lookup_app_l by lia. apply sameObject_refl.
  - subst l. rewrite lookup_alloc. rewrite (lookup_ge_None_2 h (length h)) by lia.
    split; [reflexivity|]. intros k Hne. cbn [default from_option id props plain].
    rewrite lookupField_cons.
    destruct (String.eqb "limit" k) eqn:Hk; [|reflexivity].
    apply String.eqb_eq in Hk. congruence.
  - rewrite (lookup_ge_None_2 h l) by lia.
    rewrite (lookup_ge_None_2 (h ++ _) l) by (rewrite length_app; simpl; lia).
    apply sameObject_refl.
Qed.

Lemma same_insert_limit (h : list object) (lo : nat) (x v : value) :
  same h (<[lo:=Object (okind (deref h lo)) (setField "limit" x (props (deref h lo)))]> h) v.
Proof.
  destruct v as [| | | | |l]; simpl; trivial.
  destruct (h !! lo) as [o|] eqn:Hlo.
  - destruct (Nat.eq_dec l lo) as [->|Hne].
    + rewrite (deref_insert _ _ _ _ Hlo). split; [reflexivity|].
      intros k Hk. cbn [props]. now apply setField_limit_other.
    + assert (Hd : forall o', deref (<[lo:=o']> h) l = deref h l)
        by (intros o'; unfold deref; now rewrite list_lookup_insert_ne by congruence).
      rewrite Hd. apply sameObject_refl.
  - rewrite list_insert_ge by (now apply lookup_ge_None in Hlo). apply sameObject_refl.
Qed.

Lemma same_extend (h fresh : list object) (v : value) :
  allocated h v = true -> same h (h ++ fresh) v.
Proof.
  destruct v as [| | | | |l]; simpl; trivial. intros Hl. apply Nat.ltb_lt in Hl.
  unfold deref. rewrite lookup_app_l by lia. apply sameObject_refl.
Qed.

Lemma arrayLikeLength_deref (h h' : list object) (l : nat) :
  deref h' l = deref h l ->
  Underscore.arrayLikeLength h' (VRef l) = Underscore.arrayLikeLength h (VRef l).
Proof.
  intros H. unfold Underscore.arrayLikeLength, Underscore.valueAt, getProp. now rewrite H.
Qed.

(** *** What the wrapping layer hands on *)

Lemma handedOn_cons (h : list object) (c : value) (rest : list value) :
  isFunction h c = false ->
  exists rest', handedOn h (c :: rest) = c :: rest' /\ (rest' = rest \/ rest' = removelast rest).
Proof.
  intros Hc. unfold handedOn.
  destruct (trailingCallback h (c :: rest)) as [f|] eqn:Hcb; [|now exists rest; auto].
  apply trailingCallback_is_function in Hcb as [Hlast Hf].
  destruct rest as [|r rest].
  - simpl in Hlast. injection Hlast as ->. congruence.
  - exists (removelast (r :: rest)). split; [reflexivity | now right].
Qed.

Lemma Forall_removelast {A} (P : A -> Prop) (xs : list A) :
  Forall P xs -> Forall P (removelast xs).
Proof.
  induction 1 as [|x xs Hx Hxs IH]; [constructor|].
  destruct xs as [|y xs]; [constructor|]. cbn [removelast]. constructor; [exact Hx | exact IH].
Qed.

Lemma arg_differs (c : value) (rest : list value) (i : nat) :
  Forall (fun a => a <> c) rest -> c <> VUndefined -> arg i rest <> c.
Proof.
  intros Hall Hc. unfold arg. revert i. induction Hall as [|x xs Hx _ IH]; intros i.
  - destruct i; simpl; congruence.
  - destruct i; simpl; [exact Hx | apply IH].
Qed.

Lemma bindCallback_handedOn (oldMethod : method) (args : list value) (w : world) (e : error) :
  throwsUnsent e w (oldMethod (handedOn (store w) args) w) ->
  throwsUnsent e w (bindCallback oldMethod args w).
Proof.
  unfold throwsUnsent, bindCallback, handedOn, bindM, getStore.
  destruct (trailingCallback (store w) args);
    destruct (oldMethod _ w) as [[p|e'] w']; cbn [fst snd];
    intros (H & Hs & Hc); try discriminate H; auto.
Qed.

Lemma throwsUnsent_bind (m : M promise) (k : promise -> M promise) (w : world) (e : error) :
  throwsUnsent e w (m w) -> throwsUnsent e w (bindM m k w).
Proof.
  unfold throwsUnsent, bindM. destruct (m w) as [[p|e'] w']; cbn [fst snd];
    intros (H & Hs & Hc); [discriminate H | auto].
Qed.

(** *** Closed stores *)

Lemma lookupField_held (k : string) (v : value) (fs : list (string * value)) :
  lookupField k fs = Some v -> In v (map snd fs).
Proof.
  induction fs as [|[a x] fs IH]; [intros H; discriminate H|].
  rewrite lookupField_cons. destruct (String.eqb a k).
  - intros [= ->]. now left.
  - intros H. right. now apply IH.
Qed.

Lemma ownProp_held (o : object) (k : string) (v : value) :
  ownProp o k = Some v -> primitive v = true \/ In v (held o).
Proof.
  unfold ownProp, held. destruct (okind o) as [|elems|arity].
  - intros H. right. now apply lookupField_held in H.
  - destruct (String.eqb k "length"); [intros [= <-]; now left|].
    destruct (index_of_key k) as [i|].
    + destruct (elems !! i) as [x|] eqn:Hi.
      * intros [= ->]. right. apply in_app_iff. left.
        apply list_elem_of_In. eapply list_elem_of_lookup_2. exact Hi.
      * intros H. right. apply in_app_iff. right. now apply lookupField_held in H.
    + intros H. right. apply in_app_iff. right. now apply lookupField_held in H.
  - destruct (String.eqb k "length"); [intros [= <-]; now left|].
    intros H. right. now apply lookupField_held in H.
Qed.

Lemma primitive_allocated (h : list object) (v : value) :
  primitive v = true -> allocated h v = true.
Proof. destruct v; [reflexivity.. | intros H; discriminate H]. Qed.

Lemma closed_held (h : list object) (l : nat) (o : object) (v : value) :
  closed h = true -> h !! l = Some o -> In v (held o) -> allocated h v = true.
Proof.
  unfold closed. rewrite forallb_forall. intros Hc Hl Hin.
  assert (Ho : In o h) by (apply list_elem_of_In; eapply list_elem_of_lookup_2; exact Hl).
  specialize (Hc o Ho). rewrite forallb_forall in Hc. now apply Hc.
Qed.

Lemma closed_reach (h : list object) (c v : value) :
  closed h = true -> allocated h c = true -> reach h c v -> allocated h v = true.
Proof.
  intros Hc Ha [->|(l & item & -> & Hin & Hv)]; [exact Ha|].
  cbn [allocated] in Ha. apply Nat.ltb_lt in Ha.
  destruct (lookup_lt_is_Some_2 h l Ha) as [o Hl].
  rewrite (deref_lookup _ _ _ Hl) in Hin.
  pose proof (closed_held _ _ _ _ Hc Hl Hin) as Hitem.
  destruct Hv as [->| ->]; [exact Hitem|].
  unfold Underscore.valueAt, getProp.
  destruct item as [| |b|n|s|li]; try reflexivity.
  - destruct (strProp s "1") as [x|] eqn:Hx; [|reflexivity].
    unfold strProp in Hx.
    change (String.eqb "1" "length") with false in Hx.
    change (index_of_key "1") with (Some 1) in Hx. cbv beta iota in Hx.
    unfold charAt in Hx.
    destruct (String.get 1 s); [|discriminate Hx]. now injection Hx as <-.
  - cbn [allocated] in Hitem. apply Nat.ltb_lt in Hitem.
    destruct (lookup_lt_is_Some_2 h li Hitem) as [oi Hli].
    rewrite (deref_lookup _ _ _ Hli).
    destruct (ownProp oi "1") as [x|] eqn:Hx; [|reflexivity].
    cbn [default from_option id].
    destruct (ownProp_held _ _ _ Hx) as [Hp|Hh].
    + now apply primitive_allocated.
    + exact (closed_held _ _ _ _ Hc Hli Hh).
Qed.

Section Tuples.

Variable E : collaborators.
Variable this : BaseModel.

Lemma pairCompiles_same (h h' : list object) (k v : value) :
  same h h' v -> pairCompiles E h' (k, v) = pairCompiles E h (k, v).
Proof.
  intros Hs. unfold pairCompiles, compileItem. destruct v; try reflexivity.
  simpl in Hs. destruct Hs as [-> _].
  match goal with |- context [bind ?X _] => destruct X as [[[op cj] v']|e] end; reflexivity.
Qed.

Lemma itemCompiles_same (h h' : list object) (item : value) :
  same h h' item -> same h h' (Underscore.valueAt h item "1") ->
  itemCompiles E h' item = itemCompiles E h item.
Proof.
  intros Hi Hv. unfold itemCompiles. rewrite (readItem_same _ _ _ Hi).
  destruct (readItem h item) as [[k v]|e] eqn:Hr; [|reflexivity]. cbn [bind].
  apply readItem_value in Hr as ->.
  exact (pairCompiles_same h h' k _ Hv).
Qed.

Lemma short_pair_throws (h : list object) (k : value) (lv : nat) (tuple : list value)
    (st : string * nat) :
  okind (deref h lv) = KArray tuple ->
  length tuple < 2 ->
  compileItem E h (k, VRef lv) st
  = Throw (DbError "invalid_param" (VStr "not enough params for condition")).
Proof.
  intros Hlv Hlen. destruct st as [str i]. unfold compileItem. rewrite Hlv.
  destruct tuple as [|x [|y tuple]]; simpl in *; [reflexivity | reflexivity | lia].
Qed.

Lemma short_item_throws (h : list object) (li lv : nat) (key : value)
    (more tuple : list value) (st : string * nat) :
  okind (deref h li) = KArray (key :: VRef lv :: more) ->
  okind (deref h lv) = KArray tuple ->
  length tuple < 2 ->
  (let* kv := readItem h (VRef li) in compileItem E h kv st)
  = Throw (DbError "invalid_param" (VStr "not enough params for condition")).
Proof.
  intros Hli Hlv Hlen. unfold readItem, getProp, ownProp. rewrite Hli.
  cbn [bind default from_option id]. simpl.
  exact (short_pair_throws h key lv tuple st Hlv Hlen).
Qed.

Lemma loop_over_compiling_pairs (h : list object) (pre : list (string * value))
    (st : string * nat) :
  forallb (fun kv => pairCompiles E h (VStr (fst kv), snd kv)) pre = true ->
  exists st',
    fold_left (fun acc item => let* st := acc in let* kv := item in compileItem E h kv st)
              (map (fun kv => Return (VStr (fst kv), snd kv)) pre) (Return st) = Return st'.
Proof.
  revert st. induction pre as [|[k v] pre IH]; intros st Hall; cbn [map fold_left].
  - now exists st.
  - apply andb_prop in Hall as [Hitem Hall]. unfold pairCompiles in Hitem.
    cbn [bind fst snd] in *.
    destruct (compileItem E h (VStr k, v) (EmptyString, 0%nat)) as [r|e] eqn:Hr;
      [|discriminate].
    destruct (compileItem_succeeds_anywhere E _ _ _ st _ Hr) as [r' Hr'].
    rewrite Hr'. now apply IH.
Qed.

Lemma list_short_tuple (h : list object) (l li lv : nat)
    (pre post more tuple : list value) (key : value) :
  okind (deref h l) = KArray (pre ++ VRef li :: post) ->
  forallb (itemCompiles E h) pre = true ->
  okind (deref h li) = KArray (key :: VRef lv :: more) ->
  okind (deref h lv) = KArray tuple ->
  length tuple < 2 ->
  compileConditions E this h (VRef l)
  = Throw (DbError "invalid_param" (VStr "not enough params for condition")).
Proof.
  intros Hl Hpre Hli Hlv Hlen. unfold compileConditions.
  cbn [isNumber isString orb andb bind Underscore.isObject isArray]. rewrite Hl.
  cbn [negb andb]. unfold compileItems, listItems.
  destruct (array_items _ _ _ Hl) as [extra Hx].
  rewrite <- (map_map fst (readItem h)), Hx, !map_app, !fold_left_app.
  cbn [map fold_left].
  destruct (loop_over_compiling_items E h pre (EmptyString, 0%nat) Hpre) as [st' ->].
  cbn [bind]. rewrite (short_item_throws _ _ _ _ _ _ st' Hli Hlv Hlen).
  rewrite !fold_throw_missing; reflexivity.
Qed.

Lemma mapping_items (h : list object) (l : nat) (fs : list (string * value)) :
  h !! l = Some (plain fs) ->
  NoDup (map fst fs) ->
  Underscore.arrayLikeLength h (VRef l) = None ->
  fs <> [] ->
  objectItems h (VRef l) = Some (map (fun kv => Return (VStr (fst kv), snd kv)) fs).
Proof.
  intros Hl Hnd Harr Hne. unfold objectItems.
  assert (Hempty : Underscore.isEmpty h (VRef l) = false).
  { unfold Underscore.isEmpty. rewrite Harr. unfold Underscore.keys.
    rewrite (deref_lookup _ _ _ Hl). cbn [okind props plain].
    destruct fs; [congruence | reflexivity]. }
  rewrite Hempty. f_equal. unfold Underscore.entries, Underscore.eachKeys.
  rewrite Harr. unfold Underscore.keys. rewrite (deref_lookup _ _ _ Hl).
  cbn [okind props plain]. rewrite !map_map. apply map_ext_in.
  intros [k v] Hin. cbn [fst snd].
  unfold Underscore.valueAt, getProp. rewrite (deref_lookup _ _ _ Hl).
  unfold ownProp. cbn [okind props plain].
  now rewrite (lookupField_In k v _ Hnd Hin).
Qed.

Lemma mapping_short_tuple (h : list object) (l lv : nat) (pre post : list (string * value))
    (k : string) (tuple : list value) :
  h !! l = Some (plain (pre ++ (k, VRef lv) :: post)) ->
  NoDup (map fst (pre ++ (k, VRef lv) :: post)) ->
  Underscore.arrayLikeLength h (VRef l) = None ->
  forallb (fun kv => pairCompiles E h (VStr (fst kv), snd kv)) pre = true ->
  okind (deref h lv) = KArray tuple ->
  length tuple < 2 ->
  compileConditions E this h (VRef l)
  = Throw (DbError "invalid_param" (VStr "not enough params for condition")).
Proof.
  intros Hl Hnd Harr Hpre Hlv Hlen. unfold compileConditions.
  cbn [isNumber isString orb andb bind Underscore.isObject isArray].
  rewrite (deref_lookup _ _ _ Hl). cbn [okind plain negb].
  rewrite (mapping_items _ _ _ Hl Hnd Harr) by (now destruct pre).
  unfold compileItems. rewrite map_app, fold_left_app. cbn [map fold_left].
  destruct (loop_over_compiling_pairs h pre (EmptyString, 0%nat) Hpre) as [st' ->].
  cbn [bind fst snd]. rewrite (short_pair_throws _ _ _ _ st' Hlv Hlen).
  rewrite fold_throw_missing; reflexivity.
Qed.

Lemma shortTuple_compile (h : list object) (c : value) :
  shortTuple E h c ->
  compileConditions E this h c
  = Throw (DbError "invalid_param" (VStr "not enough params for condition")).
Proof.
  intros [l li lv pre post more tuple key Hl Hpre Hli Hlv Hlen
         |l lv pre post k tuple Hl Hnd Harr Hpre Hlv Hlen].
  - eapply list_short_tuple; eauto.
  - eapply mapping_short_tuple; eauto.
Qed.

Lemma shortTuple_not_function (h : list object) (c : value) :
  shortTuple E h c -> isFunction h c = false.
Proof.
  intros [l li lv pre post more tuple key Hl Hpre Hli Hlv Hlen
         |l lv pre post k tuple Hl Hnd Harr Hpre Hlv Hlen]; cbn [isFunction].
  - now rewrite Hl.
  - now rewrite (deref_lookup _ _ _ Hl).
Qed.

(** A descriptor with a short tuple stays one when the objects that the
    loop reads keep their kind, their elements and their properties other
    than [limit]. *)
Lemma shortTuple_same (h h' : list object) (l : nat) :
  shortTuple E h (VRef l) ->
  (forall v, reach h (VRef l) v -> same h h' v) ->
  isArray h (VRef l) = true \/ h' !! l = h !! l ->
  shortTuple E h' (VRef l).
Proof.
  intros Hs Hsame Hl'.
  pose proof (Hsame (VRef l) (or_introl eq_refl)) as [Hkl _].
  inversion Hs as [l0 li lv pre post more tuple key Hl Hpre Hli Hlv Hlen Heq
                  |l0 lv pre post k tuple Hl Hnd Harr Hpre Hlv Hlen Heq]; subst l0.
  - assert (Hheld : forall item, In item (pre ++ VRef li :: post) ->
                      forall v, v = item \/ v = Underscore.valueAt h item "1" -> same h h' v).
    { intros item Hin v Hv. apply Hsame. right. exists l, item.
      split; [reflexivity|]. split; [|exact Hv].
      unfold held. rewrite Hl. apply in_app_iff. now left. }
    assert (Hin : In (VRef li) (pre ++ VRef li :: post))
      by (apply in_app_iff; right; now left).
    pose proof (Hheld _ Hin (VRef li) (or_introl eq_refl)) as [Hkli _].
    assert (Hval : Underscore.valueAt h (VRef li) "1" = VRef lv).
    { unfold Underscore.valueAt, getProp, ownProp. rewrite Hli. reflexivity. }
    pose proof (Hheld _ Hin (VRef lv) (or_intror (eq_sym Hval))) as [Hklv _].
    eapply ShortInList with (pre := pre) (li := li) (lv := lv).
    + rewrite Hkl. exact Hl.
    + apply forallb_forall. intros item Hitem.
      assert (Hin' : In item (pre ++ VRef li :: post)) by (apply in_app_iff; now left).
      rewrite (itemCompiles_same h h' item (Hheld _ Hin' item (or_introl eq_refl))
                 (Hheld _ Hin' _ (or_intror eq_refl))).
      clear Hin'. revert item Hitem. now apply forallb_forall.
    + rewrite Hkli. exact Hli.
    + rewrite Hklv. exact Hlv.
    + exact Hlen.
  - assert (Hl2 : h' !! l = Some (plain (pre ++ (k, VRef lv) :: post))).
    { destruct Hl' as [Ha | ->]; [|exact Hl].
      cbn [isArray] in Ha. rewrite (deref_lookup _ _ _ Hl) in Ha. discriminate Ha. }
    assert (Hheld : forall kv, In kv (pre ++ (k, VRef lv) :: post) -> same h h' (snd kv)).
    { intros kv Hin. apply Hsame. right. exists l, (snd kv).
      split; [reflexivity|]. split; [|now left].
      unfold held. rewrite (deref_lookup _ _ _ Hl). cbn [okind props plain app].
      now apply in_map. }
    assert (Hin : In (k, VRef lv) (pre ++ (k, VRef lv) :: post))
      by (apply in_app_iff; right; now left).
    pose proof (Hheld _ Hin) as [Hklv _].
    eapply ShortInMapping with (pre := pre) (lv := lv).
    + exact Hl2.
    + exact Hnd.
    + rewrite <- Harr. apply arrayLikeLength_deref.
      now rewrite (deref_lookup _ _ _ Hl), (deref_lookup _ _ _ Hl2).
    + apply forallb_forall. intros kv Hkv.
      assert (Hin' : In kv (pre ++ (k, VRef lv) :: post)) by (apply in_app_iff; now left).
      rewrite (pairCompiles_same h h' (VStr (fst kv)) (snd kv) (Hheld _ Hin')).
      clear Hin'. revert kv Hkv. now apply forallb_forall.
    + cbn [snd] in Hklv. rewrite Hklv. exact Hlv.
    + exact Hlen.
Qed.

(** *** The methods on a descriptor with a short tuple *)

Lemma search_short (w : world) (c : value) (rest : list value) :
  shortTuple E (store w) c ->
  search E this (c :: rest) w
  = (Throw (DbError "invalid_param" (VStr "not enough params for condition")), w).
Proof.
  intros Hs. apply bindCallback_throws; [exact (shortTuple_not_function _ _ Hs)|].
  intros args Ha. apply proto_search_compile_error. rewrite Ha.
  now apply shortTuple_compile.
Qed.

Lemma delete_short (w : world) (c : value) (rest : list value) :
  shortTuple E (store w) c ->
  delete E this (c :: rest) w
  = (Throw (DbError "invalid_param" (VStr "not enough params for condition")), w).
Proof.
  intros Hs. apply bindCallback_throws; [exact (shortTuple_not_function _ _ Hs)|].
  intros args Ha. apply remove_compile_error. rewrite Ha.
  now apply shortTuple_compile.
Qed.

(** [find] writes the limit into the options, or into options of its
    own, and goes on with [search]. *)
Lemma proto_find_limits (args : list value) (w : world) :
  exists h2 options,
    proto_find E this args w
    = bindM (search E this [arg 0 args; options])
            (fun promise => andThen promise (firstRow E)) (withStore w h2)
    /\ (forall v, same (store w) h2 v)
    /\ (forall l, arg 1 args <> VRef l -> l < length (store w) -> h2 !! l = store w !! l).
Proof.
  destruct (truthy (arg 1 args)) eqn:Ht.
  - destruct (arg 1 args) as [| |b|n|s|lo] eqn:Ho; try discriminate Ht.
    1-3: exists (store w), (arg 1 args); rewrite Ho; split;
      [unfold proto_find; rewrite Ho; cbv zeta; rewrite Ht; destruct w; reflexivity
      |split; [intros v; apply same_refl | reflexivity]].
    exists (<[lo:=Object (okind (deref (store w) lo))
                    (setField "limit" (VNum 1) (props (deref (store w) lo)))]> (store w)),
      (VRef lo).
    split; [|split].
    + unfold proto_find. rewrite Ho. cbv zeta. cbn [truthy].
      unfold bindM at 1 2 3 4. cbn [getStore putStore fst snd].
      unfold lift, setProp. cbn [store withStore]. rewrite setOwn_limit. reflexivity.
    + intros v. apply same_insert_limit.
    + intros l Hne _. apply list_lookup_insert_ne. congruence.
  - exists (store w ++ [plain [("limit", VNum 1)]]), (VRef (length (store w))).
    split; [|split].
    + unfold proto_find. cbv zeta. rewrite Ht. cbn [alloc].
      unfold bindM at 1 2 3 4. cbn [getStore putStore fst snd store withStore].
      unfold lift, setProp. rewrite deref_alloc, setOwn_limit. cbn [bind okind props plain].
      rewrite insert_alloc. reflexivity.
    + intros v. apply same_alloc_limit.
    + intros l _ Hlt. now apply lookup_app_l.
Qed.

Lemma shortTuple_allocated (h : list object) (l : nat) :
  shortTuple E h (VRef l) -> l < length h.
Proof.
  intros Hs.
  inversion Hs as [l0 li lv pre post more tuple key Hl Hpre Hli Hlv Hlen Heq
                  |l0 lv pre post k tuple Hl Hnd Harr Hpre Hlv Hlen Heq]; subst l0.
  - destruct (okind_array_lookup _ _ _ Hl) as [ps Hl']. now apply lookup_lt_Some in Hl'.
  - now apply lookup_lt_Some in Hl.
Qed.

Lemma proto_find_short (w : world) (l : nat) (args : list value) :
  shortTuple E (store w) (VRef l) ->
  arg 0 args = VRef l ->
  isArray (store w) (VRef l) = true \/ arg 1 args <> VRef l ->
  throwsUnsent (DbError "invalid_param" (VStr "not enough params for condition")) w
    (proto_find E this args w).
Proof.
  intros Hs Ha Hal.
  destruct (proto_find_limits args w) as (h2 & options & -> & Hsame & Hkeep).
  assert (Hs2 : shortTuple E (store (withStore w h2)) (VRef l)).
  { apply (shortTuple_same (store w)); [exact Hs | intros v _; apply Hsame|].
    destruct Hal as [Harr|Hne]; [now left | right].
    apply Hkeep; [exact Hne | exact (shortTuple_allocated _ _ Hs)]. }
  rewrite Ha. unfold bindM. rewrite (search_short _ _ [options] Hs2).
  repeat split.
Qed.

Lemma find_short (w : world) (l : nat) (rest : list value) :
  shortTuple E (store w) (VRef l) ->
  isArray (store w) (VRef l) = true \/ Forall (fun a => a <> VRef l) rest ->
  throwsUnsent (DbError "invalid_param" (VStr "not enough params for condition")) w
    (find E this (VRef l :: rest) w).
Proof.
  intros Hs Hal. apply bindCallback_handedOn.
  destruct (handedOn_cons (store w) (VRef l) rest (shortTuple_not_function _ _ Hs))
    as (rest' & -> & Hr).
  apply (proto_find_short w l); [exact Hs | reflexivity|].
  destruct Hal as [Harr|Hall]; [now left | right].
  change (arg 1 (VRef l :: rest')) with (arg 0 rest').
  apply arg_differs; [|discriminate].
  destruct Hr as [-> | ->]; [exact Hall | now apply Forall_removelast].
Qed.

Lemma findByPk_short (w : world) (l : nat) (rest : list value) :
  shortTuple E (store w) (VRef l) ->
  isArray (store w) (VRef l) = true \/ Forall (fun a => a <> VRef l) rest ->
  throwsUnsent (DbError "invalid_param" (VStr "not enough params for condition")) w
    (findByPk E this (VRef l :: rest) w).
Proof.
  intros Hs Hal. apply bindCallback_handedOn.
  destruct (handedOn_cons (store w) (VRef l) rest (shortTuple_not_function _ _ Hs))
    as (rest' & -> & Hr).
  unfold proto_findByPk. change (arg 0 (VRef l :: rest')) with (VRef l).
  change (arg 1 (VRef l :: rest')) with (arg 0 rest').
  apply (find_short w l); [exact Hs|].
  destruct Hal as [Harr|Hall]; [now left | right].
  constructor; [|constructor]. apply arg_differs; [|discriminate].
  destruct Hr as [-> | ->]; [exact Hall | now apply Forall_removelast].
Qed.

Lemma findOne_short (w : world) (l : nat) (field : value) (rest : list value) :
  shortTuple E (store w) (VRef l) ->
  isArray (store w) (VRef l) = true \/ Forall (fun a => a <> VRef l) rest ->
  throwsUnsent (DbError "invalid_param" (VStr "not enough params for condition")) w
    (findOne E this (field :: VRef l :: rest) w).
Proof.
  intros Hs Hal. unfold findOne. apply throwsUnsent_bind.
  change (arg 1 (field :: VRef l :: rest)) with (VRef l).
  change (arg 2 (field :: VRef l :: rest)) with (arg 0 rest).
  apply (find_short w l); [exact Hs|].
  destruct Hal as [Harr|Hall]; [now left | right].
  constructor; [|constructor]. apply arg_differs; [exact Hall | discriminate].
Qed.

Lemma shortTuple_extend (h fresh : list object) (l : nat) :
  shortTuple E h (VRef l) -> closed h = true -> shortTuple E (h ++ fresh) (VRef l).
Proof.
  intros Hs Hc. pose proof (shortTuple_allocated _ _ Hs) as Hl.
  apply (shortTuple_same h); [exact Hs | |].
  - intros v Hv. apply same_extend. apply (closed_reach h (VRef l)); [exact Hc | | exact Hv].
    now apply Nat.ltb_lt.
  - right. now apply lookup_app_l.
Qed.

Lemma proto_update_short (w : world) (l : nat) (args : list value) :
  shortTuple E (store w) (VRef l) ->
  closed (store w) = true ->
  arg 0 args = VRef l ->
  passesValidation E (store w) (VRef l) (arg 2 args) ->
  throwsUnsent (DbError "invalid_param" (VStr "not enough params for condition")) w
    (proto_update E this args w).
Proof.
  intros Hs Hc Ha Hv. unfold proto_update. rewrite Ha. cbv zeta.
  unfold Underscore.pick, alloc.
  destruct (truthy (arg 2 args)) eqn:Ht.
  - destruct Hv as [Hf|Hv]; [congruence|].
    unfold bindM at 1 2. unfold bindM at 2 3. cbn [getStore fst snd].
    destruct (validateJs E (store w) (VRef l) (arg 2 args)) as [fresh errors].
    cbn [snd] in Hv. unfold bindM at 2. cbn [putStore]. rewrite Hv.
    unfold bindM. cbn [ret getStore putStore lift store withStore].
    rewrite <- app_assoc.
    rewrite (shortTuple_compile _ _ (shortTuple_extend _ _ _ Hs Hc)).
    repeat split.
  - unfold bindM. cbn [ret getStore putStore lift store withStore].
    rewrite (shortTuple_compile _ _ (shortTuple_extend _ _ _ Hs Hc)).
    repeat split.
Qed.

Lemma update_short (w : world) (l : nat) (rest : list value) :
  shortTuple E (store w) (VRef l) ->
  closed (store w) = true ->
  passesValidation E (store w) (VRef l) (arg 2 (handedOn (store w) (VRef l :: rest))) ->
  throwsUnsent (DbError "invalid_param" (VStr "not enough params for condition")) w
    (update E this (VRef l :: rest) w).
Proof.
  intros Hs Hc Hv. apply bindCallback_handedOn.
  destruct (handedOn_cons (store w) (VRef l) rest (shortTuple_not_function _ _ Hs))
    as (rest' & Heq & _).
  rewrite Heq in *. now apply (proto_update_short w l).
Qed.

(** C8, as the code has it.  A descriptor, list or keyed mapping, that
    holds an operator tuple of fewer than two elements behind items that
    compile makes [compileConditions] throw a [DbError] whose message is
    [invalid_param] and whose description is [not enough params for
    condition].  [search], [remove] and [delete] throw it at once.  So do
    [find], [findByPk] and [findOne], which first write the limit into the
    options: a keyed mapping must not be its own options.  So does
    [update], once past its validation; its store has grown by then, hence
    the closed store.  In every case no statement has gone to the driver. *)
Theorem short_operator_tuple_is_refused (w : world) (l : nat) (rest : list value)
    (field : value) :
  shortTuple E (store w) (VRef l) ->
  let e := DbError "invalid_param" (VStr "not enough params for condition") in
  compileConditions E this (store w) (VRef l) = Throw e
  /\ search E this (VRef l :: rest) w = (Throw e, w)
  /\ remove E this (VRef l :: rest) w = (Throw e, w)
  /\ delete E this (VRef l :: rest) w = (Throw e, w)
  /\ (isArray (store w) (VRef l) = true \/ Forall (fun a => a <> VRef l) rest ->
      throwsUnsent e w (find E this (VRef l :: rest) w)
      /\ throwsUnsent e w (findByPk E this (VRef l :: rest) w)
      /\ throwsUnsent e w (findOne E this (field :: VRef l :: rest) w))
  /\ (closed (store w) = true ->
      passesValidation E (store w) (VRef l) (arg 2 (handedOn (store w) (VRef l :: rest))) ->
      throwsUnsent e w (update E this (VRef l :: rest) w)).
Proof.
  intros Hs e. pose proof (shortTuple_compile _ _ Hs) as Hc. fold e in Hc.
  split; [exact Hc|].
  split; [now apply search_short|].
  split; [now apply remove_compile_error|].
  split; [now apply delete_short|].
  split.
  - intros Hal. split; [|split].
    + now apply find_short.
    + now apply findByPk_short.
    + now apply findOne_short.
  - intros Hcl Hv. now apply update_short.
Qed.

End Tuples.

(** *** The further properties on the [user] table *)

Lemma mapping_compiles_to_conjunction_witness :
  readmeStore !! 2 = Some (plain [("username", VStr "user1"); ("password", VStr "123456")])
  /\ NoDup ["username"; "password"]%string
  /\ compileConditions E0 user readmeStore (VRef 2)
     = Return " WHERE (`username` = 'user1') AND (`password` = '123456')"%string.
Proof.
  assert (Hnd : NoDup ["username"; "password"]%string).
  { apply NoDup_cons; split; [|apply NoDup_cons; split; [|constructor]].
    - intros H. apply list_elem_of_In in H. destruct H as [H|[]]. discriminate H.
    - intros H. apply list_elem_of_In in H. destruct H. }
  split; [reflexivity | split; [exact Hnd|]].
  apply (mapping_compiles_to_conjunction E0 user readmeStore 2
           [("username", VStr "user1"); ("password", VStr "123456")] eq_refl Hnd eq_refl).
  repeat constructor.
Defined.

Lemma list_compiles_to_joined_clauses_witness :
  termStore !! 2 = Some (array [VRef 3; VRef 5])
  /\ termItem termStore (VRef 3) (Term (VStr "username") "like" (VStr "super%") "and")
  /\ termItem termStore (VRef 5) (Term (VStr "email") "<>" (VStr "a@b.c") "or")
  /\ compileConditions E0 user termStore (VRef 2)
     = Return " WHERE (`username` LIKE 'super%') OR (`email` <> 'a@b.c')"%string.
Proof.
  assert (H3 : termItem termStore (VRef 3) (Term (VStr "username") "like" (VStr "super%") "and"))
    by (exists 3, 4; repeat split).
  assert (H5 : termItem termStore (VRef 5) (Term (VStr "email") "<>" (VStr "a@b.c") "or"))
    by (exists 5, 6; repeat split).
  split; [reflexivity | split; [exact H3 | split; [exact H5|]]].
  assert (Hall : Forall2 (termItem termStore) [VRef 3; VRef 5]
                   [Term (VStr "username") "like" (VStr "super%") "and";
                    Term (VStr "email") "<>" (VStr "a@b.c") "or"])
    by (constructor; [exact H3 | constructor; [exact H5 | constructor]]).
  exact (list_compiles_to_joined_clauses E0 user termStore 2 [VRef 3; VRef 5] _ _ eq_refl Hall).
Defined.

Lemma like_operand_is_wrapped_witness :
  likeStore !! 2 = Some (array [VRef 3])
  /\ likeStore !! 3 = Some (array [VStr "username"; VRef 4])
  /\ likeStore !! 4 = Some (array [VStr "like"; VStr "spider"])
  /\ toUpperCase E0 "like" = "LIKE"%string
  /\ compileConditions E0 user likeStore (VRef 2)
     = Return " WHERE (`username` LIKE '%spider%')"%string.
Proof.
  do 4 (split; [reflexivity|]).
  apply (like_operand_is_wrapped E0 user likeStore 2 3 4 (VStr "username") "like"
           (VStr "spider")); reflexivity.
Defined.

Lemma resolved_key_compiles_to_equality_witness :
  pk user = PkField "id"
  /\ resolves recordStore "id" (VRef 2) (VNum 7)
  /\ exists h1 condition,
       buildPkCondition user recordStore (VRef 2) = Return (h1, condition)
       /\ compileConditions E0 user h1 condition
          = Return (" WHERE " +:+ equalityClause E0 h1 ("id"%string, VNum 7)).
Proof.
  assert (Hres : resolves recordStore "id" (VRef 2) (VNum 7)).
  { right. exists 2. split; [reflexivity | split; [reflexivity | discriminate]]. }
  split; [reflexivity | split; [exact Hres|]].
  apply (resolved_key_compiles_to_equality E0 user recordStore "id" (VRef 2) (VNum 7));
    [reflexivity | reflexivity | reflexivity | exact Hres].
Defined.

Lemma find_limits_to_one_row_witness :
  let w := World optionsStore [] [] in
  store w !! 2
    = Some (plain [("orderBy", VStr "id ASC"); ("limit", VNum 10); ("start", VNum 50)])
  /\ isFunction (store w) (VRef 2) = false
  /\ sent (snd (find E0 user [VNum 7; VRef 2] w))
     = ["SELECT * FROM `user` WHERE (`id` = 7) ORDER BY id ASC LIMIT 50, 1"%string].
Proof.
  split; [reflexivity | split; [reflexivity|]].
  apply (find_limits_to_one_row E0 user (VNum 7) 2 _ (World optionsStore [] [])
           " WHERE (`id` = 7)" eq_refl eq_refl eq_refl).
Defined.

Lemma find_resolves_first_row_or_null_witness :
  let w := World h0 [] [] in
  let sql7 := "SELECT * FROM `user` WHERE (`id` = 7) LIMIT 1"%string in
  let sql9 := "SELECT * FROM `user` WHERE (`id` = 9) LIMIT 1"%string in
  find E0 user [VNum 7] w
  = (Return (Fulfilled (VRef 3)),
     World (h0 ++ [plain [("limit", VNum 1)]; plain [("id", VNum 7)]; array [VRef 3]]) [sql7] [])
  /\ find E0 user [VNum 9] w
  = (Return (Fulfilled VNull),
     World (h0 ++ [plain [("limit", VNum 1)]; array []]) [sql9] []).
Proof.
  split.
  - apply (find_resolves_first_row_or_null E0 user (VNum 7) [VNum 7] (World h0 [] [])
             " WHERE (`id` = 7)" [plain [("id", VNum 7)]; array [VRef 3]] VNull 4 [VRef 3]);
      [left; reflexivity | reflexivity | reflexivity | reflexivity | reflexivity | reflexivity].
  - apply (find_resolves_first_row_or_null E0 user (VNum 9) [VNum 9] (World h0 [] [])
             " WHERE (`id` = 9)" [array []] VNull 3 []);
      [left; reflexivity | reflexivity | reflexivity | reflexivity | reflexivity | reflexivity].
Defined.

Lemma findOne_projects_first_row_witness :
  let w := World h0 [] [] in
  fst (findOne E0 user [VStr "id"; VNum 7] w) = Return (Fulfilled (VNum 7))
  /\ fst (findOne E0 user [VStr "email"; VNum 7] w) = Return (Fulfilled VUndefined)
  /\ fst (findOne E0 user [VStr "id"; VNum 9] w) = Return (Fulfilled VUndefined).
Proof.
  assert (Hrow : Forall (fun row => Underscore.isObject row = true) [VRef 3])
    by (repeat constructor).
  assert (Hnone : Forall (fun row => Underscore.isObject row = true) [])
    by constructor.
  pose proof (findOne_projects_first_row E0 user "id" (VNum 7) (World h0 [] [])
                " WHERE (`id` = 7)" [plain [("id", VNum 7)]; array [VRef 3]] VNull 4 [VRef 3]
                eq_refl eq_refl eq_refl eq_refl Hrow) as H1.
  pose proof (findOne_projects_first_row E0 user "email" (VNum 7) (World h0 [] [])
                " WHERE (`id` = 7)" [plain [("id", VNum 7)]; array [VRef 3]] VNull 4 [VRef 3]
                eq_refl eq_refl eq_refl eq_refl Hrow) as H2.
  pose proof (findOne_projects_first_row E0 user "id" (VNum 9) (World h0 [] [])
                " WHERE (`id` = 9)" [array []] VNull 3 []
                eq_refl eq_refl eq_refl eq_refl Hnone) as H3.
  split; [now rewrite H1 | split; [now rewrite H2 | now rewrite H3]].
Defined.

Lemma findAll_has_no_condition_witness :
  let w := World optionsStore [] [] in
  isFunction (store w) (VRef 2) = false
  /\ sent (snd (findAll E0 user [VRef 2] w))
     = ["SELECT * FROM `user` ORDER BY id ASC LIMIT 50, 10"%string].
Proof.
  split; [reflexivity|].
  rewrite (findAll_has_no_condition E0 user (VRef 2) (World optionsStore [] []) eq_refl).
  reflexivity.
Defined.

Lemma queryOne_refuses_other_statements_witness :
  mentionsSelect "DELETE FROM `user`" = false
  /\ queryOne E0 "DELETE FROM `user`" w0
     = (Throw (DbError "invalid_call" (VStr "only select allowed: DELETE FROM `user`")), w0).
Proof.
  split; [reflexivity|].
  apply (queryOne_refuses_other_statements E0 "DELETE FROM `user`" w0 eq_refl).
Defined.

Lemma queryOne_accepts_select_anywhere_witness :
  lowcaseString "Select" = "select"%string
  /\ sent (snd (queryOne E0 "DELETE FROM `user` WHERE id IN (Select 7)" w0))
     = ["DELETE FROM `user` WHERE id IN (Select 7)"%string].
Proof.
  split; [reflexivity|].
  apply (queryOne_accepts_select_anywhere E0 "DELETE FROM `user` WHERE id IN (" "Select" " 7)"
           w0 eq_refl).
Defined.

Lemma queryOne_resolves_first_column_witness :
  exists first,
    queryOne E0 "SELECT id FROM `user` WHERE id = 7" w0
    = (Return (Fulfilled first),
       World (h0 ++ [plain [("id", VNum 7)]; array [VRef 2]])
             ["SELECT id FROM `user` WHERE id = 7"%string] [])
    /\ first = VNum 7.
Proof.
  destruct (queryOne_resolves_first_column E0 "SELECT id FROM `user` WHERE id = 7" w0
              [plain [("id", VNum 7)]; array [VRef 2]] VNull 3 [VRef 2]
              eq_refl eq_refl eq_refl eq_refl) as (first & Hq & Hfirst).
  - constructor; [|constructor]. exists 2, "id"%string, (VNum 7), []. split; reflexivity.
  - exists first. split; [exact Hq|].
    destruct Hfirst as (rl & k & x & fs & Hrow & Hrl & ->).
    injection Hrow as <-. cbv in Hrl. now injection Hrl as _ <- _.
Defined.

Lemma replace_stops_on_failed_lookup_witness :
  let w := World recordStore [] [] in
  replace (withDriver failingDriver) user [VRef 2] w
  = (Return (Rejected (Reason (VStr "PROTOCOL_CONNECTION_LOST"))),
     World (recordStore ++ [plain [("id", VNum 7)]; plain [("limit", VNum 1)]])
           ["SELECT * FROM `user` WHERE (`id` = 7) LIMIT 1"%string] []).
Proof.
  apply (replace_stops_on_failed_lookup (withDriver failingDriver) user [VRef 2]
           (World recordStore [] []) (recordStore ++ [plain [("id", VNum 7)]]) (VRef 4)
           " WHERE (`id` = 7)" [] (VStr "PROTOCOL_CONNECTION_LOST") VUndefined
           eq_refl eq_refl eq_refl eq_refl eq_refl).
Defined.

Lemma insert_keeps_allowed_fields_witness :
  let w := World recordStore [] [] in
  truthy VUndefined = false
  /\ exists fs,
       insert E0 user [VRef 2; VUndefined] w
       = query E0 (format E0 (store w ++ [plain fs]) "INSERT INTO ?? SET ?"
                     [VStr "user"; VRef 4])
                  (withStore w (store w ++ [plain fs]))
       /\ lookupField "username" fs = Some (VStr "king")
       /\ lookupField "id" fs = None.
Proof.
  split; [reflexivity|].
  destruct (insert_keeps_allowed_fields E0 user (VRef 2) VUndefined (World recordStore [] [])
              eq_refl) as (fs & Hins & Hlook).
  exists fs. split; [exact Hins | split].
  - rewrite Hlook. reflexivity.
  - rewrite Hlook. reflexivity.
Defined.

Lemma insert_stops_on_violation_witness :
  let w := World recordStore [] [] in
  let w1 := World (recordStore ++ [plain [("username", VStr "is invalid")]]) [] [] in
  validate strict user (VRef 2) (VBool true) w = (Return (VRef 4), w1)
  /\ insert strict user [VRef 2; VBool true] w = (Throw (DbError "validition" (VRef 4)), w1)
  /\ sent w1 = sent w.
Proof.
  split; [reflexivity|].
  apply (insert_stops_on_violation strict user (VRef 2) (VBool true) (World recordStore [] [])
           _ (VRef 4) eq_refl eq_refl eq_refl eq_refl).
Defined.

Lemma update_validates_the_condition_witness :
  let w := World recordStore [] [] in
  validateJs strict (store w) (VNum 7) (VBool true)
    = ([plain [("username", VStr "is invalid")]], VRef 4)
  /\ update strict user [VNum 7; VRef 2; VBool true] w
     = (Throw (DbError "validition" (VRef 4)),
        World (recordStore ++ [plain [("username", VStr "is invalid")]]) [] []).
Proof.
  split; [reflexivity|].
  apply (update_validates_the_condition strict user (VNum 7) (VRef 2) (VBool true)
           (World recordStore [] []) _ (VRef 4) eq_refl eq_refl eq_refl eq_refl).
Defined.

Lemma composite_key_resolves_witness :
  pk membership = PkFields ["tenant"; "id"]
  /\ exists fs,
       buildPkCondition membership compositeStore (VRef 2)
       = Return (compositeStore ++ [plain fs], VRef 4)
       /\ lookupField "tenant" fs = Some (VStr "a")
       /\ lookupField "id" fs = Some (VNum 7).
Proof.
  split; [reflexivity|].
  destruct (composite_key_resolves membership compositeStore 2 ["tenant"; "id"]%string eq_refl)
    as (fs & Hb & Hlook).
  - repeat constructor.
  - exists fs. split; [exact Hb | split; rewrite Hlook; reflexivity].
Defined.

Lemma composite_falsy_field_is_refused_witness :
  pk membership = PkFields ["tenant"; "id"]
  /\ Underscore.valueAt compositeStore (VRef 3) "id" = VNum 0
  /\ buildPkCondition membership compositeStore (VRef 3) = Throw (missing "id").
Proof.
  split; [reflexivity | split; [reflexivity|]].
  apply (composite_falsy_field_is_refused membership compositeStore 3 ["tenant"]%string []
           "id" eq_refl); [repeat constructor | reflexivity].
Defined.

Lemma short_operator_tuple_is_refused_witness :
  let w := World shortTupleStore [] [] in
  let w' := World shortFieldStore [] [] in
  let e := DbError "invalid_param" (VStr "not enough params for condition") in
  shortTuple E0 (store w) (VRef 2)
  /\ shortTuple E0 (store w') (VRef 2)
  /\ closed (store w') = true
  /\ passesValidation E0 (store w') (VRef 2)
       (arg 2 (handedOn (store w') [VRef 2; VRef 0; VUndefined]))
  /\ compileConditions E0 user (store w) (VRef 2) = Throw e
  /\ search E0 user [VRef 2; VUndefined] w = (Throw e, w)
  /\ delete E0 user [VRef 2] w = (Throw e, w)
  /\ throwsUnsent e w (find E0 user [VRef 2; VRef 2] w)
  /\ compileConditions E0 user (store w') (VRef 2) = Throw e
  /\ throwsUnsent e w' (find E0 user [VRef 2; VRef 0; VUndefined] w')
  /\ throwsUnsent e w' (findByPk E0 user [VRef 2; VRef 0; VUndefined] w')
  /\ throwsUnsent e w' (findOne E0 user [VStr "username"; VRef 2; VRef 0; VUndefined] w')
  /\ throwsUnsent e w' (update E0 user [VRef 2; VRef 0; VUndefined] w').
Proof.
  set (w := World shortTupleStore [] []). set (w' := World shortFieldStore [] []).
  assert (Hlen : length [VStr "LIKE"] < 2) by (simpl; lia).
  assert (Hlen' : length (@nil value) < 2) by (simpl; lia).
  assert (Hs : shortTuple E0 (store w) (VRef 2))
    by exact (ShortInList E0 (store w) 2 4 5 [VRef 3] [] [] [VStr "LIKE"] (VStr "email")
                eq_refl eq_refl eq_refl eq_refl Hlen).
  assert (Hnd : NoDup (map fst ([("username"%string, VStr "king")]
                                  ++ ("email"%string, VRef 3) :: []))).
  { apply NoDup_cons; split; [|apply NoDup_cons; split; [|constructor]].
    - intros H. apply list_elem_of_In in H. destruct H as [H|[]]. discriminate H.
    - intros H. apply list_elem_of_In in H. destruct H. }
  assert (Hs' : shortTuple E0 (store w') (VRef 2))
    by exact (ShortInMapping E0 (store w') 2 3 [("username"%string, VStr "king")] []
                "email" [] eq_refl Hnd eq_refl eq_refl eq_refl Hlen').
  assert (Hv : passesValidation E0 (store w') (VRef 2)
                 (arg 2 (handedOn (store w') [VRef 2; VRef 0; VUndefined])))
    by (left; reflexivity).
  destruct (short_operator_tuple_is_refused E0 user w 2 [VUndefined] VNull Hs)
    as (Hc & Hsearch & _).
  destruct (short_operator_tuple_is_refused E0 user w 2 [] VNull Hs)
    as (_ & _ & _ & Hdelete & _).
  destruct (short_operator_tuple_is_refused E0 user w 2 [VRef 2] VNull Hs)
    as (_ & _ & _ & _ & Hfind & _).
  destruct (Hfind (or_introl eq_refl)) as (Hfind2 & _).
  destruct (short_operator_tuple_is_refused E0 user w' 2 [VRef 0; VUndefined]
              (VStr "username") Hs')
    as (Hc' & _ & _ & _ & Hfind' & Hupdate').
  assert (Hne : Forall (fun a => a <> VRef 2) [VRef 0; VUndefined])
    by (constructor; [discriminate | constructor; [discriminate | constructor]]).
  destruct (Hfind' (or_intror Hne)) as (Hf1 & Hf2 & Hf3).
  pose proof (Hupdate' eq_refl Hv) as Hu.
  split; [exact Hs|]. split; [exact Hs'|]. split; [reflexivity|]. split; [exact Hv|].
  split; [exact Hc|]. split; [exact Hsearch|]. split; [exact Hdelete|].
  split; [exact Hfind2|]. split; [exact Hc'|]. split; [exact Hf1|].
  split; [exact Hf2|]. split; [exact Hf3 | exact Hu].
Defined.

(** C8, as stated, fails in more than one way.  The description of the
    error is not the quoted text.  A descriptor that holds a short tuple
    fails with another error when an earlier item does not compile (here
    the operator of the first tuple is a number).  A keyed mapping with a
    numeric [length] is walked by index, so its short tuple is never read
    (here the length is 0 and the condition compiles to nothing).  And
    [find] writes the limit into its options before it compiles: a mapping
    whose short tuple is its [limit], passed as its own options, holds the
    number 1 there by then, and the statement is sent. *)
Lemma short_operator_tuple_counterexample :
  let h := [array [VRef 1]; array [VStr "a"; VRef 2]; array []] in
  let h' := [array [VRef 1; VRef 3]; array [VStr "a"; VRef 2]; array [VNum 1; VNum 2];
             array [VStr "b"; VRef 4]; array []] in
  let h2 := [plain [("a", VRef 1); ("length", VNum 0)]; array []] in
  let w3 := World (h0 ++ [plain [("limit", VRef 3)]; array []]) [] [] in
  compileConditions E0 user h (VRef 0)
    = Throw (DbError "invalid_param" (VStr "not enough params for condition"))
  /\ "not enough params for condition"%string <> "not enough parameters for condition"%string
  /\ compileConditions E0 user h' (VRef 0) = Throw TypeError
  /\ compileConditions E0 user h2 (VRef 0) = Return EmptyString
  /\ compileConditions E0 user (store w3) (VRef 2)
     = Throw (DbError "invalid_param" (VStr "not enough params for condition"))
  /\ sent (snd (find E0 user [VRef 2; VRef 2] w3))
     = ["SELECT * FROM `user` WHERE (`limit` = 1) LIMIT 1"%string].
Proof.
  split; [reflexivity | split; [discriminate | split; [reflexivity|]]].
  split; [reflexivity | split; reflexivity].
Qed.
